(** * The follow-me example (example/follow_me/follow_me.cpp)

    The program [main] drives a vehicle through dronecore: it connects,
    waits for the device, arms, takes off, starts FollowMe mode, relays
    the locations of a location provider to the vehicle, then stops
    FollowMe and lands.

    [main] is embedded as an interaction tree over the calls it makes to
    its collaborators.  The collaborators (dronecore, the location
    provider, boost::asio, the C++ runtime) are a [World] of answers and
    a [Device] state; [exec] runs a tree against them for a number of
    steps and records every call in a log. *)

From Stdlib Require Import String Ascii List ZArith Bool Arith Lia Floats.
From ITree Require Import ITree ITreeFacts.
Import ListNotations.
Import ITreeNotations.
Local Open Scope itree_scope.
Local Open Scope string_scope.
Local Open Scope list_scope.

Set Implicit Arguments.

(** ** Types of the collaborators *)

(** [Action::Result], [FollowMe::Result] and [DroneCore::ConnectionResult]
    are enumerations of dronecore with a [SUCCESS] value and a
    [result_str] function each.  Their declarations are not part of the
    example, so they are taken as parameters through this interface. *)
Class ResultEnum (R : Type) : Type := {
  SUCCESS : R;
  result_eq_dec : forall a b : R, {a = b} + {a <> b};
  result_str : R -> string
}.

(** Modelled from the spec: the declaration of [FollowMe::TargetLocation]
    is not part of the example.  The example reads [latitude_deg] and
    [longitude_deg] and builds a value from six initialisers; the other
    field names follow the spec's data model.  The [float] fields only
    ever hold [0.f], which is the same number in binary64. *)
Record TargetLocation : Type := {
  latitude_deg : float;
  longitude_deg : float;
  altitude_m : float;
  velocity_north : float;
  velocity_east : float;
  velocity_down : float
}.

(** What is streamed into [std::cout] or [std::cerr] before [std::endl]. *)
Variant Chunk : Type :=
| Str (s : string)
| Dbl (d : float).

(* For coloring output *)
Definition ESC : string := String (ascii_of_nat 27) EmptyString.
Definition ERROR_CONSOLE_TEXT : string := (ESC ++ "[31m")%string.
Definition TELEMETRY_CONSOLE_TEXT : string := (ESC ++ "[34m")%string.
Definition NORMAL_CONSOLE_TEXT : string := (ESC ++ "[0m")%string.

(** [EXIT_FAILURE] of <cstdlib>. *)
Definition EXIT_FAILURE : Z := 1.

Definition seconds (n : nat) : nat := n.

(** What the collaborators answer.  Polls and location samples are
    numbered from 0; [flight_mode_updates] and
    [set_target_location_result] are asked at a time, the number of log
    entries made so far. *)
Record World (ActionResult FollowMeResult ConnectionResult FlightMode : Type)
  : Type := {
  add_udp_connection_result : ConnectionResult;
  is_connected_at : nat -> bool;
  health_all_ok_at : nat -> bool;
  arm_result : ActionResult;
  takeoff_result : ActionResult;
  land_result : ActionResult;
  start_result : FollowMeResult;
  stop_result : FollowMeResult;
  set_target_location_result : nat -> FollowMeResult;
  location_updates : nat -> option (float * float);
  flight_mode_updates : nat -> list FlightMode;
  initial_location : TargetLocation
}.

(** ** Scenarios

    Stand-ins for the enumerations of dronecore, and worlds on which the
    theorems of this file are tried. *)

(** The result of a command: success, or a failure with its reason
    string. *)
Inductive CommandResult : Type :=
| Success
| Failure (why : string).

Definition CommandResult_eq_dec (a b : CommandResult) : {a = b} + {a <> b}.
Proof. decide equality. apply string_dec. Defined.

Definition CommandResult_enum : ResultEnum CommandResult :=
  {| SUCCESS := Success;
     result_eq_dec := CommandResult_eq_dec;
     result_str := fun r => match r with
                            | Success => "Success"
                            | Failure why => why
                            end |}.

Variant Mode : Type := READY | TAKEOFF | FOLLOW_ME | LAND.

Definition mode_str (m : Mode) : string :=
  match m with
  | READY => "Ready"
  | TAKEOFF => "Takeoff"
  | FOLLOW_ME => "FollowMe"
  | LAND => "Land"
  end.

#[local] Set Warnings "-inexact-float".

(** A world in which the heartbeat is seen at the polls [connected], the
    health check passes at the second poll, [arm] returns [arm_r], the
    location provider has the samples of [stream], the vehicle link
    answers [push] to a target location, the vehicle reports the flight
    modes [modes], and every other command succeeds. *)
Definition mission (arm_r : CommandResult) (connected : nat -> bool)
    (stream : list (float * float)) (push : nat -> CommandResult)
    (modes : nat -> list Mode)
  : World CommandResult CommandResult CommandResult Mode :=
  {| add_udp_connection_result := Success;
     is_connected_at := connected;
     health_all_ok_at := fun j => Nat.leb 1 j;
     arm_result := arm_r;
     takeoff_result := Success;
     land_result := Success;
     start_result := Success;
     stop_result := Success;
     set_target_location_result := push;
     location_updates := nth_error stream;
     flight_mode_updates := modes;
     initial_location :=
       {| latitude_deg := 0; longitude_deg := 0; altitude_m := 0;
          velocity_north := 0; velocity_east := 0; velocity_down := 0 |} |}.

Definition two_samples : list (float * float) :=
  [(47.0, 8.5); (47.001, 8.501)]%float.

(** Everything succeeds and the provider has two samples. *)
Definition nominal : World CommandResult CommandResult CommandResult Mode :=
  mission Success (Nat.leb 1) two_samples (fun _ => Success) (fun _ => []).

(** [arm] is refused. *)
Definition arm_refused
  : World CommandResult CommandResult CommandResult Mode :=
  mission (Failure "reason") (Nat.leb 1) two_samples (fun _ => Success)
    (fun _ => []).

(** No heartbeat is ever seen. *)
Definition no_heartbeat
  : World CommandResult CommandResult CommandResult Mode :=
  mission Success (fun _ => false) two_samples (fun _ => Success)
    (fun _ => []).

(** The provider has no sample. *)
Definition empty_feed
  : World CommandResult CommandResult CommandResult Mode :=
  mission Success (Nat.leb 1) [] (fun _ => Success) (fun _ => []).

(** The vehicle link discards the first target location. *)
Definition first_discarded
  : World CommandResult CommandResult CommandResult Mode :=
  mission Success (Nat.leb 1) two_samples
    (fun t => if Nat.eqb t 20 then Failure "Busy" else Success)
    (fun _ => []).

(** The vehicle reports its flight mode while it takes off and while it
    lands. *)
Definition watched : World CommandResult CommandResult CommandResult Mode :=
  mission Success (Nat.leb 1) two_samples (fun _ => Success)
    (fun t => if Nat.eqb t 13 then [TAKEOFF]
              else if Nat.eqb t 30 then [LAND] else []).


(** The vehicle link discards every target location. *)
Definition all_discarded
  : World CommandResult CommandResult CommandResult Mode :=
  mission Success (Nat.leb 1) two_samples (fun _ => Failure "Busy")
    (fun _ => []).

(** The provider never runs out of samples. *)
Definition endless : World CommandResult CommandResult CommandResult Mode :=
  {| add_udp_connection_result := Success;
     is_connected_at := fun j => Nat.leb 1 j;
     health_all_ok_at := fun j => Nat.leb 1 j;
     arm_result := Success;
     takeoff_result := Success;
     land_result := Success;
     start_result := Success;
     stop_result := Success;
     set_target_location_result := fun _ => Success;
     location_updates := fun _ => Some (47.0, 8.5)%float;
     flight_mode_updates := fun _ => [];
     initial_location :=
       {| latitude_deg := 0; longitude_deg := 0; altitude_m := 0;
          velocity_north := 0; velocity_east := 0; velocity_down := 0 |} |}.

Section FollowMe.

Context {ActionResult FollowMeResult ConnectionResult FlightMode : Type}.
Context {Action_Result : ResultEnum ActionResult}.
Context {FollowMe_Result : ResultEnum FollowMeResult}.
Context {Connection_Result : ResultEnum ConnectionResult}.
Variable flight_mode_str : FlightMode -> string.

(** ** Calls *)

(** Calls that the callbacks make: the FollowMe plugin and the console. *)
Variant cbE : Type -> Type :=
| set_target_location (loc : TargetLocation) : cbE FollowMeResult
| get_last_location : cbE TargetLocation
| cout (line : list Chunk) : cbE unit.

(** A callback is a lambda without loops: a finite tree of calls. *)
Inductive callback (A : Type) : Type :=
| cb_return (a : A)
| cb_call {X : Type} (e : cbE X) (k : X -> callback A).

(** The other calls of [main]. *)
Variant mainE : Type -> Type :=
| add_udp_connection : mainE ConnectionResult
| is_connected : mainE bool
| health_all_ok : mainE bool
| arm : mainE ActionResult
| takeoff : mainE ActionResult
| land : mainE ActionResult
| flight_mode_async (cb : FlightMode -> callback unit) : mainE unit
| start : mainE FollowMeResult
| stop : mainE FollowMeResult
| new_FakeLocationProvider : mainE nat
| request_location_updates (provider : nat)
    (cb : float -> float -> callback unit) : mainE unit
| io_run_one : mainE bool
| sleep_for (duration : nat) : mainE unit
| cerr (line : list Chunk) : mainE unit
| exit_ (status : Z) : mainE void.

Definition E : Type -> Type := cbE +' mainE.

(** ** The program *)

(** [while (cond) { body }] *)
Definition while_ (cond : itree E bool) (body : itree E unit) : itree E unit :=
  ITree.iter (fun _ : unit =>
    c <- cond ;;
    if c : bool then body ;; Ret (inl tt) else Ret (inr tt)) tt.

(** Modelled from the spec: boost::asio is not part of the example.
    [io.run()] runs the handlers of the context one after the other until
    it is out of work, that is [while (io.run_one()) {}]; control comes back
    when the location stream is exhausted. *)
Definition io_run : itree E unit :=
  while_ (trigger io_run_one) (Ret tt).

(* Handles Action's result *)
Definition action_error_exit (result : ActionResult) (message : string)
  : itree E unit :=
  if result_eq_dec result SUCCESS then Ret tt
  else
    trigger (cerr [Str ERROR_CONSOLE_TEXT; Str message;
                   Str (result_str result); Str NORMAL_CONSOLE_TEXT]) ;;
    v <- trigger (exit_ EXIT_FAILURE) ;;
    match v : void with end.

(* Handles FollowMe's result *)
Definition follow_me_error_exit (result : FollowMeResult) (message : string)
  : itree E unit :=
  if result_eq_dec result SUCCESS then Ret tt
  else
    trigger (cerr [Str ERROR_CONSOLE_TEXT; Str message;
                   Str (result_str result); Str NORMAL_CONSOLE_TEXT]) ;;
    v <- trigger (exit_ EXIT_FAILURE) ;;
    match v : void with end.

(* Handles connection result *)
Definition connection_error_exit (result : ConnectionResult) (message : string)
  : itree E unit :=
  if result_eq_dec result SUCCESS then Ret tt
  else
    trigger (cerr [Str ERROR_CONSOLE_TEXT; Str message;
                   Str (result_str result); Str NORMAL_CONSOLE_TEXT]) ;;
    v <- trigger (exit_ EXIT_FAILURE) ;;
    match v : void with end.

(** The lambda given to [flight_mode_async]. *)
Definition flight_mode_lambda (flight_mode : FlightMode) : callback unit :=
  cb_call get_last_location (fun last_location =>
  cb_call (cout [Str "[FlightMode: "; Str (flight_mode_str flight_mode);
                 Str "] Vehicle is at: "; Dbl (latitude_deg last_location);
                 Str ", "; Dbl (longitude_deg last_location);
                 Str " degrees."]) (fun _ =>
  cb_return tt)).

(** The lambda given to [request_location_updates]. *)
Definition location_lambda (lat lon : float) : callback unit :=
  cb_call (set_target_location
             {| latitude_deg := lat; longitude_deg := lon;
                altitude_m := 0.0; velocity_north := 0.0;
                velocity_east := 0.0; velocity_down := 0.0 |}) (fun _ =>
  cb_return tt).

Definition main : itree E Z :=
  conn_result <- trigger add_udp_connection ;;
  connection_error_exit conn_result "Connection failed" ;;

  (* Wait for the device to connect via heartbeat *)
  while_ (c <- trigger is_connected ;; Ret (negb c))
    (trigger (cout [Str "Wait for device to connect via heartbeat"]) ;;
     trigger (sleep_for (seconds 1))) ;;

  (* Device got discovered. *)
  while_ (h <- trigger health_all_ok ;; Ret (negb h))
    (trigger (cout [Str "Waiting for device to be ready"]) ;;
     trigger (sleep_for (seconds 1))) ;;
  trigger (cout [Str "Device is ready"]) ;;

  (* Arm *)
  arm_result <- trigger arm ;;
  action_error_exit arm_result "Arming failed" ;;
  trigger (cout [Str "Armed"]) ;;

  (* Subscribe to receive updates on flight mode. *)
  trigger (flight_mode_async flight_mode_lambda) ;;

  (* Takeoff *)
  takeoff_result <- trigger takeoff ;;
  action_error_exit takeoff_result "Takeoff failed" ;;
  trigger (cout [Str "In Air..."]) ;;
  trigger (sleep_for (seconds 5)) ;;

  (* Start Follow Me *)
  follow_me_result <- trigger start ;;
  follow_me_error_exit follow_me_result "Failed to start FollowMe mode" ;;

  (* Register for platform-specific Location provider. *)
  provider <- trigger new_FakeLocationProvider ;;
  trigger (request_location_updates provider location_lambda) ;;
  io_run ;; (* will run as long as location updates continue to happen. *)

  (* Stop Follow Me *)
  follow_me_result <- trigger stop ;;
  follow_me_error_exit follow_me_result "Failed to stop FollowMe mode" ;;

  (* Land *)
  land_result <- trigger land ;;
  action_error_exit land_result "Landing failed" ;;

  (* We are relying on auto-disarming but let's keep watching the telemetry
     for a bit longer. *)
  trigger (sleep_for (seconds 5)) ;;
  trigger (cout [Str "Finished..."]) ;;
  Ret 0%Z.

(** ** The collaborators *)

(** A log entry: a call with its answer, or the library entering one of
    the two callbacks.  [exit] does not return and has no entry. *)
Inductive Obs : Type :=
| O_add_udp_connection (r : ConnectionResult)
| O_is_connected (b : bool)
| O_health_all_ok (b : bool)
| O_arm (r : ActionResult)
| O_takeoff (r : ActionResult)
| O_land (r : ActionResult)
| O_flight_mode_async
| O_start (r : FollowMeResult)
| O_stop (r : FollowMeResult)
| O_new_FakeLocationProvider (provider : nat)
| O_request_location_updates (provider : nat)
| O_io_run_one (b : bool)
| O_sleep_for (duration : nat)
| O_cerr (line : list Chunk)
| O_set_target_location (loc : TargetLocation) (r : FollowMeResult)
| O_get_last_location (loc : TargetLocation)
| O_cout (line : list Chunk)
| FlightModeCallback (flight_mode : FlightMode)
| LocationCallback (lat lon : float).

Definition obs_cb {X : Type} (c : cbE X) : X -> Obs :=
  match c with
  | set_target_location loc => fun r => O_set_target_location loc r
  | get_last_location => fun loc => O_get_last_location loc
  | cout line => fun _ => O_cout line
  end.

Definition obs_main {X : Type} (m : mainE X) : X -> Obs :=
  match m with
  | add_udp_connection => fun r => O_add_udp_connection r
  | is_connected => fun b => O_is_connected b
  | health_all_ok => fun b => O_health_all_ok b
  | arm => fun r => O_arm r
  | takeoff => fun r => O_takeoff r
  | land => fun r => O_land r
  | flight_mode_async _ => fun _ => O_flight_mode_async
  | start => fun r => O_start r
  | stop => fun r => O_stop r
  | new_FakeLocationProvider => fun p => O_new_FakeLocationProvider p
  | request_location_updates p _ => fun _ => O_request_location_updates p
  | io_run_one => fun b => O_io_run_one b
  | sleep_for d => fun _ => O_sleep_for d
  | cerr line => fun _ => O_cerr line
  | exit_ _ => fun v => match v : void with end
  end.

Record Device : Type := {
  log : list Obs;
  connected_polls : nat;
  health_polls : nat;
  samples : nat;
  flight_mode_callback : option (FlightMode -> callback unit);
  location_callback : option (float -> float -> callback unit);
  live_providers : nat;
  last_location : TargetLocation
}.

Definition append_log (l : list Obs) (s : Device) : Device :=
  {| log := log s ++ l;
     connected_polls := connected_polls s;
     health_polls := health_polls s;
     samples := samples s;
     flight_mode_callback := flight_mode_callback s;
     location_callback := location_callback s;
     live_providers := live_providers s;
     last_location := last_location s |}.

Definition record (o : Obs) (s : Device) : Device := append_log [o] s.

Definition set_last_location (loc : TargetLocation) (s : Device) : Device :=
  {| log := log s;
     connected_polls := connected_polls s;
     health_polls := health_polls s;
     samples := samples s;
     flight_mode_callback := flight_mode_callback s;
     location_callback := location_callback s;
     live_providers := live_providers s;
     last_location := loc |}.

Definition count_polls (c h n : nat) (s : Device) : Device :=
  {| log := log s;
     connected_polls := c + connected_polls s;
     health_polls := h + health_polls s;
     samples := n + samples s;
     flight_mode_callback := flight_mode_callback s;
     location_callback := location_callback s;
     live_providers := live_providers s;
     last_location := last_location s |}.

Definition set_flight_mode_callback (cb : FlightMode -> callback unit)
    (s : Device) : Device :=
  {| log := log s;
     connected_polls := connected_polls s;
     health_polls := health_polls s;
     samples := samples s;
     flight_mode_callback := Some cb;
     location_callback := location_callback s;
     live_providers := live_providers s;
     last_location := last_location s |}.

Definition set_location_callback (cb : float -> float -> callback unit)
    (s : Device) : Device :=
  {| log := log s;
     connected_polls := connected_polls s;
     health_polls := health_polls s;
     samples := samples s;
     flight_mode_callback := flight_mode_callback s;
     location_callback := Some cb;
     live_providers := live_providers s;
     last_location := last_location s |}.

(** An object made by [new] lives until a [delete]; the example has
    none. *)
Definition allocate_provider (s : Device) : Device :=
  {| log := log s;
     connected_polls := connected_polls s;
     health_polls := health_polls s;
     samples := samples s;
     flight_mode_callback := flight_mode_callback s;
     location_callback := location_callback s;
     live_providers := S (live_providers s);
     last_location := last_location s |}.

Section Collaborators.

Variable w : World ActionResult FollowMeResult ConnectionResult FlightMode.

Definition init : Device :=
  {| log := [];
     connected_polls := 0;
     health_polls := 0;
     samples := 0;
     flight_mode_callback := None;
     location_callback := None;
     live_providers := 0;
     last_location := initial_location w |}.

(** Modelled from the spec: the FollowMe plugin is not part of the
    example.  [set_target_location] hands a location to the vehicle link,
    which takes it or, when it is momentarily unable to accept it, discards
    it; [get_last_location] gives the last location taken. *)
Definition perform_cb {X : Type} (e : cbE X) (s : Device) : X * Device :=
  match e in cbE X return X * Device with
  | set_target_location loc =>
      let r := set_target_location_result w (length (log s)) in
      (r, if result_eq_dec r SUCCESS then set_last_location loc s else s)
  | get_last_location => (last_location s, s)
  | cout _ => (tt, s)
  end.

Fixpoint run_callback {A : Type} (c : callback A) (s : Device) : A * Device :=
  match c with
  | cb_return a => (a, s)
  | cb_call e k =>
      let (x, s') := perform_cb e s in
      run_callback (k x) (record (obs_cb e x) s')
  end.

(** Modelled from the spec: the Telemetry plugin is not part of the
    example.  Once a callback is registered with [flight_mode_async],
    dronecore calls it for every flight-mode update of the vehicle:
    [notify] serves the updates that the world has at this time.  In
    which calls of [main] it does so is for [handle] and [handle_on_loop]
    to say. *)
Definition notify (s : Device) : Device :=
  match flight_mode_callback s with
  | Some cb =>
      fold_left
        (fun s' flight_mode =>
           snd (run_callback (cb flight_mode)
                  (record (FlightModeCallback flight_mode) s')))
        (flight_mode_updates w (length (log s))) s
  | None => s
  end.

(** Modelled from the spec: FakeLocationProvider is not part of the
    example.  Its work on the io context is to call the registered
    callback with the next sample of the stream; when the stream has
    stopped the context is out of work. *)
Definition run_one (s : Device) : bool * Device :=
  match location_callback s, location_updates w (samples s) with
  | Some cb, Some (lat, lon) =>
      (true, count_polls 0 0 1
               (snd (run_callback (cb lat lon)
                       (record (LocationCallback lat lon) s))))
  | _, _ => (false, s)
  end.

(** The calls in which [main] waits.  When dronecore runs the flight-mode
    callback is decided in its Telemetry plugin, which is not part of the
    example: [handle] lets the callback run in each of these calls.  That
    is more than the spec has, the event loop alone ([handle_on_loop]);
    what is proved of [run] holds wherever dronecore calls back. *)
Definition blocking {X : Type} (e : mainE X) : bool :=
  match e with
  | add_udp_connection | arm | takeoff | land | start | stop
  | io_run_one | sleep_for _ => true
  | _ => false
  end.

(** The answer to a call of [main], or the exit status. *)
Definition perform_main {X : Type} (e : mainE X) (s : Device)
  : (X + Z) * Device :=
  match e in mainE X return (X + Z) * Device with
  | add_udp_connection => (inl (add_udp_connection_result w), s)
  | is_connected =>
      (inl (is_connected_at w (connected_polls s)), count_polls 1 0 0 s)
  | health_all_ok =>
      (inl (health_all_ok_at w (health_polls s)), count_polls 0 1 0 s)
  | arm => (inl (arm_result w), s)
  | takeoff => (inl (takeoff_result w), s)
  | land => (inl (land_result w), s)
  | flight_mode_async cb => (inl tt, set_flight_mode_callback cb s)
  | start => (inl (start_result w), s)
  | stop => (inl (stop_result w), s)
  | new_FakeLocationProvider =>
      (inl (live_providers s), allocate_provider s)
  | request_location_updates _ cb => (inl tt, set_location_callback cb s)
  | io_run_one => let (b, s') := run_one s in (inl b, s')
  | sleep_for _ => (inl tt, s)
  | cerr _ => (inl tt, s)
  | exit_ status => (inr status, s)
  end.

(** One call of [main]: the answer and the device afterwards, the call
    logged when it returns. *)
Definition handle {X : Type} (e : E X) (s : Device) : (X + Z) * Device :=
  match e with
  | inl1 c =>
      let (x, s') := perform_cb c s in
      (inl x, record (obs_cb c x) s')
  | inr1 m =>
      let (a, s') := perform_main m (if blocking m then notify s else s) in
      match a with
      | inl x => (inl x, record (obs_main m x) s')
      | inr status => (inr status, s')
      end
  end.

(** ** Running a program *)

Variant Outcome (R : Type) : Type :=
| Returned (r : R)
| Exited (status : Z)
| Running.
Arguments Exited {R} status.
Arguments Running {R}.

Record Run (R : Type) : Type := {
  outcome : Outcome R;
  final : Device;
  fuel_left : nat
}.

(** [exec n t s] runs [t] from [s] for at most [n] steps, a step being a
    call or a turn of a loop. *)
Fixpoint exec {R : Type} (n : nat) (t : itree E R) (s : Device) : Run R :=
  match n with
  | 0 => {| outcome := Running; final := s; fuel_left := 0 |}
  | S n' =>
      match observe t with
      | RetF r => {| outcome := Returned r; final := s; fuel_left := n |}
      | TauF t' => exec n' t' s
      | VisF e k =>
          match handle e s with
          | (inl x, s') => exec n' (k x) s'
          | (inr status, s') =>
              {| outcome := Exited status; final := s'; fuel_left := n' |}
          end
      end
  end.

(** [main] run from the start. *)
Definition run (n : nat) : Run Z := exec n main init.

(** ** The control flow of [main], read off its log *)

Definition target_of (lat lon : float) : TargetLocation :=
  {| latitude_deg := lat; longitude_deg := lon;
     altitude_m := 0.0; velocity_north := 0.0;
     velocity_east := 0.0; velocity_down := 0.0 |}.

Definition status_line (flight_mode : FlightMode) (loc : TargetLocation)
  : list Chunk :=
  [Str "[FlightMode: "; Str (flight_mode_str flight_mode);
   Str "] Vehicle is at: "; Dbl (latitude_deg loc);
   Str ", "; Dbl (longitude_deg loc); Str " degrees."].

(** What the flight-mode callback logs for a list of updates. *)
Definition status_notes (updates : list FlightMode) (loc : TargetLocation)
  : list Obs :=
  flat_map (fun flight_mode =>
              [FlightModeCallback flight_mode; O_get_last_location loc;
               O_cout (status_line flight_mode loc)]) updates.

(** The message that [main] gives to the error handler of a command. *)
Definition failure_message (o : Obs) : string :=
  match o with
  | O_add_udp_connection _ => "Connection failed"
  | O_arm _ => "Arming failed"
  | O_takeoff _ => "Takeoff failed"
  | O_start _ => "Failed to start FollowMe mode"
  | O_stop _ => "Failed to stop FollowMe mode"
  | O_land _ => "Landing failed"
  | _ => ""
  end.

(** The reason string of the result of a command. *)
Definition reason (o : Obs) : string :=
  match o with
  | O_add_udp_connection r => result_str r
  | O_arm r | O_takeoff r | O_land r => result_str r
  | O_start r | O_stop r | O_set_target_location _ r => result_str r
  | _ => ""
  end.

Definition diagnostic (o : Obs) : list Chunk :=
  [Str ERROR_CONSOLE_TEXT; Str (failure_message o); Str (reason o);
   Str NORMAL_CONSOLE_TEXT].

(** The six commands that [main] checks, and whether one failed. *)
Definition checked (o : Obs) : bool :=
  match o with
  | O_add_udp_connection _ | O_arm _ | O_takeoff _ | O_land _
  | O_start _ | O_stop _ => true
  | _ => false
  end.

Definition failed (o : Obs) : Prop :=
  match o with
  | O_add_udp_connection r => r <> SUCCESS
  | O_arm r | O_takeoff r | O_land r => r <> SUCCESS
  | O_start r | O_stop r => r <> SUCCESS
  | _ => False
  end.

(** The points of [main] between two log entries. *)
Inductive Stage : Type :=
| Start
| Failed (o : Obs)
| Aborted (o : Obs)
| Polling_connected
| Waiting_connected
| Sleeping_connected
| Polling_health
| Waiting_health
| Sleeping_health
| Discovered
| Arming
| Armed
| Subscribing
| Taking_off
| Airborne
| Settling
| Starting
| Started
| Registering (provider : nat)
| Following
| Delivering (lat lon : float)
| Delivered
| Stopping
| Landing
| Landed
| Finishing
| Finished.

(** The points at which [main] waits in a call while the flight-mode
    callback is registered. *)
Definition serving (st : Stage) : bool :=
  match st with
  | Taking_off | Settling | Starting | Following | Stopping | Landing
  | Landed => true
  | _ => false
  end.

Inductive edge : Stage -> Obs -> Stage -> Prop :=
| e_connect : edge Start (O_add_udp_connection SUCCESS) Polling_connected
| e_connect_failed r :
    r <> SUCCESS ->
    edge Start (O_add_udp_connection r) (Failed (O_add_udp_connection r))
| e_diagnostic o : edge (Failed o) (O_cerr (diagnostic o)) (Aborted o)
| e_not_connected : edge Polling_connected (O_is_connected false) Waiting_connected
| e_wait_connected :
    edge Waiting_connected
      (O_cout [Str "Wait for device to connect via heartbeat"])
      Sleeping_connected
| e_sleep_connected : edge Sleeping_connected (O_sleep_for 1) Polling_connected
| e_connected : edge Polling_connected (O_is_connected true) Polling_health
| e_not_ready : edge Polling_health (O_health_all_ok false) Waiting_health
| e_wait_health :
    edge Waiting_health (O_cout [Str "Waiting for device to be ready"])
      Sleeping_health
| e_sleep_health : edge Sleeping_health (O_sleep_for 1) Polling_health
| e_ready : edge Polling_health (O_health_all_ok true) Discovered
| e_device_is_ready : edge Discovered (O_cout [Str "Device is ready"]) Arming
| e_arm : edge Arming (O_arm SUCCESS) Armed
| e_arm_failed r : r <> SUCCESS -> edge Arming (O_arm r) (Failed (O_arm r))
| e_armed : edge Armed (O_cout [Str "Armed"]) Subscribing
| e_subscribe : edge Subscribing O_flight_mode_async Taking_off
| e_takeoff : edge Taking_off (O_takeoff SUCCESS) Airborne
| e_takeoff_failed r :
    r <> SUCCESS -> edge Taking_off (O_takeoff r) (Failed (O_takeoff r))
| e_in_air : edge Airborne (O_cout [Str "In Air..."]) Settling
| e_settle : edge Settling (O_sleep_for 5) Starting
| e_start : edge Starting (O_start SUCCESS) Started
| e_start_failed r :
    r <> SUCCESS -> edge Starting (O_start r) (Failed (O_start r))
| e_new p : edge Started (O_new_FakeLocationProvider p) (Registering p)
| e_request p : edge (Registering p) (O_request_location_updates p) Following
| e_location lat lon : edge Following (LocationCallback lat lon) (Delivering lat lon)
| e_set_target lat lon r :
    edge (Delivering lat lon)
      (O_set_target_location (target_of lat lon) r) Delivered
| e_run_one : edge Delivered (O_io_run_one true) Following
| e_out_of_work : edge Following (O_io_run_one false) Stopping
| e_stop : edge Stopping (O_stop SUCCESS) Landing
| e_stop_failed r : r <> SUCCESS -> edge Stopping (O_stop r) (Failed (O_stop r))
| e_land : edge Landing (O_land SUCCESS) Landed
| e_land_failed r : r <> SUCCESS -> edge Landing (O_land r) (Failed (O_land r))
| e_watch : edge Landed (O_sleep_for 5) Finishing
| e_finished : edge Finishing (O_cout [Str "Finished..."]) Finished
| e_flight_mode st flight_mode :
    serving st = true -> edge st (FlightModeCallback flight_mode) st
| e_last_location st loc :
    serving st = true -> edge st (O_get_last_location loc) st
| e_status st flight_mode loc :
    serving st = true -> edge st (O_cout (status_line flight_mode loc)) st.

(** [steps st l st']: the entries [l] lead from [st] to [st']. *)
Inductive steps : Stage -> list Obs -> Stage -> Prop :=
| steps_nil st : steps st [] st
| steps_cons st o st' l st'' :
    edge st o st' -> steps st' l st'' -> steps st (o :: l) st''.

(** [path l st]: the log [l] leads from the start of [main] to [st]. *)
Definition path (l : list Obs) (st : Stage) : Prop := steps Start l st.

(** What is registered at a point of [main]. *)
Definition subscribed (st : Stage) : bool :=
  match st with
  | Taking_off | Airborne | Settling | Starting | Started | Registering _
  | Following | Delivering _ _ | Delivered | Stopping | Landing | Landed
  | Finishing | Finished => true
  | _ => false
  end.

Definition registered (st : Stage) : bool :=
  match st with
  | Following | Delivering _ _ | Delivered | Stopping | Landing | Landed
  | Finishing | Finished => true
  | _ => false
  end.

Definition exhausted (st : Stage) : bool :=
  match st with
  | Stopping | Landing | Landed | Finishing | Finished => true
  | Failed (O_stop _) | Failed (O_land _) => true
  | Aborted (O_stop _) | Aborted (O_land _) => true
  | _ => false
  end.

(** The points at which [exec] can stop: the two others are passed during
    [io_run_one]. *)
Definition resting (st : Stage) : bool :=
  match st with
  | Delivering _ _ | Delivered => false
  | _ => true
  end.

(** Points at which a call that waits leaves the log on its path. *)
Definition waits (st : Stage) : bool :=
  match st with
  | Failed _ | Aborted _ => false
  | _ => negb (subscribed st) || serving st
  end.

(** What the device holds at a point of [main]; once a command has failed
    nothing is said of the callbacks. *)
Definition frame (st : Stage) (s : Device) : Prop :=
  match st with
  | Failed _ | Aborted _ => True
  | _ =>
      flight_mode_callback s =
        (if subscribed st then Some flight_mode_lambda else None) /\
      location_callback s =
        (if registered st then Some location_lambda else None)
  end /\
  (exhausted st = true -> location_updates w (samples s) = None).

Definition at_stage (st : Stage) (s : Device) : Prop :=
  path (log s) st /\ frame st s.

Definition on_path (s : Device) : Prop :=
  exists st, at_stage st s /\ resting st = true.

Definition aborted (z : Z) (s : Device) : Prop :=
  z = EXIT_FAILURE /\ exists o, failed o /\ at_stage (Aborted o) s.

Definition finished (z : Z) (s : Device) : Prop :=
  z = 0%Z /\ at_stage Finished s.

(** ** What the log says of the world *)

(** Every answer in the log is one that the world gives. *)
Definition from_world (o : Obs) : Prop :=
  match o with
  | O_add_udp_connection r => r = add_udp_connection_result w
  | O_is_connected b => exists j, is_connected_at w j = b
  | O_health_all_ok b => exists j, health_all_ok_at w j = b
  | O_arm r => r = arm_result w
  | O_takeoff r => r = takeoff_result w
  | O_land r => r = land_result w
  | O_start r => r = start_result w
  | O_stop r => r = stop_result w
  | O_set_target_location _ r => exists t, r = set_target_location_result w t
  | LocationCallback lat lon => exists j, location_updates w j = Some (lat, lon)
  | FlightModeCallback flight_mode =>
      exists t, In flight_mode (flight_mode_updates w t)
  | _ => True
  end.

(** The samples that the location callback was called with, in order. *)
Definition received (l : list Obs) : list (float * float) :=
  flat_map (fun o => match o with
                     | LocationCallback lat lon => [(lat, lon)]
                     | _ => []
                     end) l.

(** The locations handed to [set_target_location], in order. *)
Definition targets (l : list Obs) : list TargetLocation :=
  flat_map (fun o => match o with
                     | O_set_target_location loc _ => [loc]
                     | _ => []
                     end) l.

(** The first [k] samples of the stream. *)
Fixpoint feed (k : nat) : list (float * float) :=
  match k with
  | 0 => []
  | S k' =>
      feed k' ++ match location_updates w k' with
                 | Some sample => [sample]
                 | None => []
                 end
  end.

Definition is_new (o : Obs) : bool :=
  match o with
  | O_new_FakeLocationProvider _ => true
  | _ => false
  end.

Definition sound (s : Device) : Prop :=
  Forall from_world (log s) /\
  received (log s) = feed (samples s) /\
  (forall j, j < samples s -> location_updates w j <> None) /\
  live_providers s = length (filter is_new (log s)).

(** ** Judgements on runs *)

(** [safe I X t s Q]: however many steps [t] is run from [s], the device
    satisfies [I]; when [t] has returned [r] it satisfies [Q r], and when
    the process has exited with [z] it satisfies [X z]. *)
Definition safe {R : Type} (I : Device -> Prop) (X : Z -> Device -> Prop)
    (t : itree E R) (s : Device) (Q : R -> Device -> Prop) : Prop :=
  forall n,
    I (final (exec n t s)) /\
    match outcome (exec n t s) with
    | Returned r => Q r (final (exec n t s))
    | Exited z => X z (final (exec n t s))
    | Running => True
    end.

(** [reach t s Q]: run from [s] with enough steps, [t] returns or the
    process exits, in a device that satisfies [Q]. *)
Definition reach {R : Type} (t : itree E R) (s : Device)
    (Q : R + Z -> Device -> Prop) : Prop :=
  exists n,
    match outcome (exec n t s) with
    | Returned r => Q (inl r) (final (exec n t s))
    | Exited z => Q (inr z) (final (exec n t s))
    | Running => False
    end.

(** [s'] is [s] after callbacks have run: the log has grown by calls of
    callbacks, and only the last location may differ besides. *)
Definition served (s s' : Device) : Prop :=
  (exists l, log s' = log s ++ l /\ Forall from_world l /\
             received l = [] /\ filter is_new l = []) /\
  connected_polls s' = connected_polls s /\
  health_polls s' = health_polls s /\
  samples s' = samples s /\
  flight_mode_callback s' = flight_mode_callback s /\
  location_callback s' = location_callback s /\
  live_providers s' = live_providers s.

(** The polls and samples counted so far. *)
Definition counted (c h k : nat) (s : Device) : Prop :=
  connected_polls s = c /\ health_polls s = h /\ samples s = k.

(** A postcondition for [reach] that asks nothing of an exit. *)
Definition unless_exit {R : Type} (P : R -> Device -> Prop)
  : R + Z -> Device -> Prop :=
  fun o s => match o with inl r => P r s | inr _ => True end.

(** The world lets [main] end: a command fails, or the device becomes
    ready and the stream stops. *)
Definition ends : Prop :=
  add_udp_connection_result w <> SUCCESS \/
  ((exists a, is_connected_at w a = true) /\
   (exists b, health_all_ok_at w b = true) /\
   (arm_result w <> SUCCESS \/ takeoff_result w <> SUCCESS \/
    start_result w <> SUCCESS \/ exists k, location_updates w k = None)).

(** ** Views of the log *)

Definition is_set_target (o : Obs) : bool :=
  match o with
  | O_set_target_location _ _ => true
  | _ => false
  end.

(** The commands that move the mission from one phase to the next. *)
Definition is_transition (o : Obs) : bool :=
  match o with
  | O_arm _ | O_takeoff _ | O_start _ | O_stop _ | O_land _ => true
  | _ => false
  end.

(** The commands given to the vehicle. *)
Definition is_command (o : Obs) : bool := checked o || is_set_target o.

Definition commands (l : list Obs) : list Obs := filter is_command l.

(** The checked commands that have succeeded before a checked command. *)
Definition before (o : Obs) : list Obs :=
  match o with
  | O_arm _ => [O_add_udp_connection SUCCESS]
  | O_takeoff _ => [O_add_udp_connection SUCCESS; O_arm SUCCESS]
  | O_start _ =>
      [O_add_udp_connection SUCCESS; O_arm SUCCESS; O_takeoff SUCCESS]
  | O_stop _ =>
      [O_add_udp_connection SUCCESS; O_arm SUCCESS; O_takeoff SUCCESS;
       O_start SUCCESS]
  | O_land _ =>
      [O_add_udp_connection SUCCESS; O_arm SUCCESS; O_takeoff SUCCESS;
       O_start SUCCESS; O_stop SUCCESS]
  | _ => []
  end.

(** The checked commands in the log at a point of [main]. *)
Definition issued (st : Stage) : list Obs :=
  match st with
  | Start => []
  | Failed o | Aborted o => before o ++ [o]
  | Polling_connected | Waiting_connected | Sleeping_connected
  | Polling_health | Waiting_health | Sleeping_health | Discovered
  | Arming => before (O_arm SUCCESS)
  | Armed | Subscribing | Taking_off => before (O_takeoff SUCCESS)
  | Airborne | Settling | Starting => before (O_start SUCCESS)
  | Started | Registering _ | Following | Delivering _ _ | Delivered
  | Stopping => before (O_stop SUCCESS)
  | Landing => before (O_land SUCCESS)
  | Landed | Finishing | Finished => before (O_land SUCCESS) ++ [O_land SUCCESS]
  end.

(** The first command of the mission that the world fails. *)
Definition first_failure : option Obs :=
  if result_eq_dec (add_udp_connection_result w) SUCCESS then
    if result_eq_dec (arm_result w) SUCCESS then
      if result_eq_dec (takeoff_result w) SUCCESS then
        if result_eq_dec (start_result w) SUCCESS then
          if result_eq_dec (stop_result w) SUCCESS then
            if result_eq_dec (land_result w) SUCCESS then None
            else Some (O_land (land_result w))
          else Some (O_stop (stop_result w))
        else Some (O_start (start_result w))
      else Some (O_takeoff (takeoff_result w))
    else Some (O_arm (arm_result w))
  else Some (O_add_udp_connection (add_udp_connection_result w)).

(** The points of [main] after the heartbeat, and after the health check. *)
Definition heard (st : Stage) : bool :=
  match st with
  | Start | Polling_connected | Waiting_connected | Sleeping_connected
  | Failed (O_add_udp_connection _) | Aborted (O_add_udp_connection _) =>
      false
  | _ => true
  end.

Definition ready (st : Stage) : bool :=
  match st with
  | Polling_health | Waiting_health | Sleeping_health => false
  | _ => heard st
  end.

(** The live location providers at a point of [main]. *)
Definition providers_at (st : Stage) : nat :=
  match st with
  | Registering _ => 1
  | Failed (O_stop _) | Failed (O_land _) => 1
  | Aborted (O_stop _) | Aborted (O_land _) => 1
  | _ => if registered st then 1 else 0
  end.

(** What the relay does: a turn of the event loop, a sample given to the
    location callback, a location pushed to the vehicle. *)
Definition is_relay (o : Obs) : bool :=
  match o with
  | O_io_run_one _ | LocationCallback _ _ | O_set_target_location _ _ => true
  | _ => false
  end.

(** What the status observer does: the flight-mode callback entered, the
    last location read. *)
Definition is_status (o : Obs) : bool :=
  match o with
  | FlightModeCallback _ | O_get_last_location _ => true
  | _ => false
  end.

Definition target_of_sample (sample : float * float) : TargetLocation :=
  target_of (fst sample) (snd sample).

(** ** Waiting for the device *)

(** One turn of each readiness poll that finds the device not ready. *)
Definition connect_round : list Obs :=
  [O_is_connected false;
   O_cout [Str "Wait for device to connect via heartbeat"];
   O_sleep_for 1].

Definition health_round : list Obs :=
  [O_health_all_ok false;
   O_cout [Str "Waiting for device to be ready"];
   O_sleep_for 1].

(** The log after [k] turns of the first poll, and after [k] turns of the
    second when the first has seen the device at its turn [a]. *)
Definition awaiting_heartbeat (k : nat) : list Obs :=
  O_add_udp_connection SUCCESS :: concat (repeat connect_round k).

Definition awaiting_health (a k : nat) : list Obs :=
  awaiting_heartbeat a ++ O_is_connected true :: concat (repeat health_round k).

Definition prefix (l l' : list Obs) : Prop := exists rest, l' = l ++ rest.

Definition is_cerr (o : Obs) : bool :=
  match o with
  | O_cerr _ => true
  | _ => false
  end.

(** The two readiness polls of [main]. *)
Definition heartbeat_poll : itree E unit :=
  while_ (c <- trigger is_connected ;; Ret (negb c))
    (trigger (cout [Str "Wait for device to connect via heartbeat"]) ;;
     trigger (sleep_for (seconds 1))).

Definition health_poll : itree E unit :=
  while_ (h <- trigger health_all_ok ;; Ret (negb h))
    (trigger (cout [Str "Waiting for device to be ready"]) ;;
     trigger (sleep_for (seconds 1))).

(** The device after [k] turns of the first poll, and after [k] turns of
    the second when the first has seen the device at its turn [a]. *)
Definition polling_heartbeat (k : nat) : Device :=
  {| log := awaiting_heartbeat k;
     connected_polls := k;
     health_polls := 0;
     samples := 0;
     flight_mode_callback := None;
     location_callback := None;
     live_providers := 0;
     last_location := initial_location w |}.

Definition polling_health (a k : nat) : Device :=
  {| log := awaiting_health a k;
     connected_polls := S a;
     health_polls := k;
     samples := 0;
     flight_mode_callback := None;
     location_callback := None;
     live_providers := 0;
     last_location := initial_location w |}.

(** ** More views of the log *)

(** The polls of the device, and those that found it not ready. *)
Definition is_poll (o : Obs) : bool :=
  match o with
  | O_is_connected _ | O_health_all_ok _ => true
  | _ => false
  end.

Definition is_failed_poll (o : Obs) : bool :=
  match o with
  | O_is_connected false | O_health_all_ok false => true
  | _ => false
  end.

(** The durations slept, in order. *)
Definition sleeps (l : list Obs) : list nat :=
  flat_map (fun o => match o with
                     | O_sleep_for duration => [duration]
                     | _ => []
                     end) l.

(** The failed polls that [main] has not slept on yet, at a point of
    [main]. *)
Definition pending (st : Stage) : nat :=
  match st with
  | Waiting_connected | Sleeping_connected | Waiting_health
  | Sleeping_health => 1
  | _ => 0
  end.

(** The sleeps of 5 seconds done at a point of [main]. *)
Definition settled (st : Stage) : nat :=
  match st with
  | Starting | Started | Registering _ | Following | Delivering _ _
  | Delivered | Stopping | Landing | Landed => 1
  | Failed (O_start _) | Failed (O_stop _) | Failed (O_land _) => 1
  | Aborted (O_start _) | Aborted (O_stop _) | Aborted (O_land _) => 1
  | Finishing | Finished => 2
  | _ => 0
  end.

(** The checked commands of a mission in which none fails. *)
Definition mission_commands : list Obs :=
  [O_add_udp_connection SUCCESS; O_arm SUCCESS; O_takeoff SUCCESS;
   O_start SUCCESS; O_stop SUCCESS; O_land SUCCESS].

(** The last entry of a log. *)
Definition last_entry (l : list Obs) : option Obs :=
  match rev l with
  | o :: _ => Some o
  | [] => None
  end.

(** The progress messages printed, in order: the lines of [cout] that are
    one string (a status line of the flight-mode callback is seven
    pieces). *)
Definition progress (l : list Obs) : list string :=
  flat_map (fun o => match o with
                     | O_cout [Str message] => [message]
                     | _ => []
                     end) l.

Definition announcements : list string :=
  ["Device is ready"; "Armed"; "In Air..."; "Finished..."].

(** The announcements made at a point of [main]. *)
Definition announced (st : Stage) : nat :=
  match st with
  | Arming | Armed | Failed (O_arm _) | Aborted (O_arm _) => 1
  | Subscribing | Taking_off | Airborne
  | Failed (O_takeoff _) | Aborted (O_takeoff _) => 2
  | Settling | Starting | Started | Registering _ | Following
  | Delivering _ _ | Delivered | Stopping | Landing | Landed | Finishing => 3
  | Failed (O_start _) | Failed (O_stop _) | Failed (O_land _) => 3
  | Aborted (O_start _) | Aborted (O_stop _) | Aborted (O_land _) => 3
  | Finished => 4
  | _ => 0
  end.

(** The polls of each kind that found the device not ready. *)
Definition heartbeat_misses (l : list Obs) : nat :=
  length (filter (fun o => match o with
                           | O_is_connected false => true
                           | _ => false
                           end) l).

Definition health_misses (l : list Obs) : nat :=
  length (filter (fun o => match o with
                           | O_health_all_ok false => true
                           | _ => false
                           end) l).

(** ** The flight-mode callback served on the event loop *)

(** The call in which the event loop runs a handler. *)
Definition on_loop {X : Type} (e : mainE X) : bool :=
  match e with
  | io_run_one => true
  | _ => false
  end.

(** Modelled from the spec: the Telemetry plugin is not part of the
    example.  The status observer is a subscription multiplexed with the
    relay on the event loop that is driven during the Following phase:
    dronecore calls the registered flight-mode callback, for the updates
    of the vehicle, in a turn of the event loop, [io.run_one()], and in
    no other call of [main]. *)
Definition handle_on_loop {X : Type} (e : E X) (s : Device)
  : (X + Z) * Device :=
  match e with
  | inl1 c =>
      let (x, s') := perform_cb c s in
      (inl x, record (obs_cb c x) s')
  | inr1 m =>
      let (a, s') := perform_main m (if on_loop m then notify s else s) in
      match a with
      | inl x => (inl x, record (obs_main m x) s')
      | inr status => (inr status, s')
      end
  end.

(** [exec] with the flight-mode callback served on the event loop. *)
Fixpoint exec_on_loop {R : Type} (n : nat) (t : itree E R) (s : Device)
  : Run R :=
  match n with
  | 0 => {| outcome := Running; final := s; fuel_left := 0 |}
  | S n' =>
      match observe t with
      | RetF r => {| outcome := Returned r; final := s; fuel_left := n |}
      | TauF t' => exec_on_loop n' t' s
      | VisF e k =>
          match handle_on_loop e s with
          | (inl x, s') => exec_on_loop n' (k x) s'
          | (inr status, s') =>
              {| outcome := Exited status; final := s'; fuel_left := n' |}
          end
      end
  end.









(** ** Facts about [exec] *)

Lemma observe_bind {R S : Type} (t : itree E R) (k : R -> itree E S) :
  observe (ITree.bind t k) =
  match observe t with
  | RetF r => observe (k r)
  | TauF t' => TauF (ITree.bind t' k)
  | VisF e h => VisF e (fun x => ITree.bind (h x) k)
  end.
Proof.
  change (observe (ITree.bind t k))
    with (observe (match observe t with
                   | RetF r => k r
                   | TauF t' => Tau (ITree.bind t' k)
                   | VisF e h => Vis e (fun x => ITree.bind (h x) k)
                   end)).
  destruct (observe t); reflexivity.
Qed.

(** [exec] looks at a tree through [observe] only. *)
Lemma exec_observe {R : Type} (t u : itree E R) :
  observe t = observe u -> forall n s, exec n t s = exec n u s.
Proof.
  intros H [|n] s; simpl; [reflexivity|]. now rewrite H.
Qed.

Lemma fuel_left_le {R : Type} n : forall (t : itree E R) s,
  fuel_left (exec n t s) <= n.
Proof.
  induction n as [|n IH]; intros t s; simpl; [lia|].
  destruct (observe t) as [r|t'|X e k]; simpl; [lia| |].
  - specialize (IH t' s). lia.
  - destruct (handle e s) as [[x|z] s']; simpl; [|lia].
    specialize (IH (k x) s'). lia.
Qed.

(** Running [t] and then [k] on what [t] returns, with the steps that
    [t] has left. *)
Lemma exec_bind {R S : Type} (k : R -> itree E S) n :
  forall (t : itree E R) s,
  exec n (ITree.bind t k) s =
  match outcome (exec n t s) with
  | Returned r => exec (fuel_left (exec n t s)) (k r) (final (exec n t s))
  | Exited z =>
      {| outcome := Exited z; final := final (exec n t s);
         fuel_left := fuel_left (exec n t s) |}
  | Running =>
      {| outcome := Running; final := final (exec n t s);
         fuel_left := fuel_left (exec n t s) |}
  end.
Proof.
  induction n as [|n IH]; intros t s; [reflexivity|].
  cbn [exec]. rewrite observe_bind.
  destruct (observe t) as [r|t'|X e h]; cbn [outcome final fuel_left].
  - reflexivity.
  - apply IH.
  - destruct (handle e s) as [[x|z] s']; [apply IH | reflexivity].
Qed.

Lemma exec_iter {I R : Type} (body : I -> itree E (I + R)) (i : I) n s :
  exec n (ITree.iter body i) s =
  exec n (ITree.bind (body i)
            (fun lr => match lr with
                       | inl l => Tau (ITree.iter body l)
                       | inr r => Ret r
                       end)) s.
Proof. apply exec_observe. reflexivity. Qed.

(** A run that has ended stays as it is when given more steps. *)
Lemma exec_more {R : Type} d n : forall (t : itree E R) s,
  outcome (exec n t s) <> Running ->
  exec (n + d) t s =
  {| outcome := outcome (exec n t s); final := final (exec n t s);
     fuel_left := fuel_left (exec n t s) + d |}.
Proof.
  induction n as [|n IH]; intros t s H; [now elim H|].
  cbn [exec Nat.add] in *.
  destruct (observe t) as [r|t'|X e k]; cbn [outcome final fuel_left] in *.
  - reflexivity.
  - now apply IH.
  - destruct (handle e s) as [[x|z] s']; [now apply IH | reflexivity].
Qed.

Lemma exec_tau {R : Type} n (t : itree E R) s :
  exec (S n) (Tau t) s = exec n t s.
Proof. reflexivity. Qed.

(** ** Rules for [safe] *)

Section Safe.

Variable I : Device -> Prop.
Variable X : Z -> Device -> Prop.

Lemma safe_now {R : Type} (t : itree E R) s Q : safe I X t s Q -> I s.
Proof. intros H. exact (proj1 (H 0)). Qed.

Lemma safe_ret {R : Type} (r : R) s (Q : R -> Device -> Prop) :
  I s -> Q r s -> safe I X (Ret r) s Q.
Proof. intros HI HQ [|n]; simpl; auto. Qed.

Lemma safe_bind {R S : Type} (t : itree E R) (k : R -> itree E S) s Q :
  safe I X t s (fun r s' => safe I X (k r) s' Q) ->
  safe I X (ITree.bind t k) s Q.
Proof.
  intros H n. rewrite exec_bind. destruct (H n) as [HI HQ].
  destruct (outcome (exec n t s)) as [r|z|]; simpl; auto.
Qed.

Lemma safe_trigger {R : Type} (e : E R) s (Q : R -> Device -> Prop) :
  I s ->
  match handle e s with
  | (inl x, s') => I s' /\ Q x s'
  | (inr z, s') => I s' /\ X z s'
  end ->
  safe I X (ITree.trigger e) s Q.
Proof.
  intros HI H [|n]; simpl; auto.
  destruct (handle e s) as [[x|z] s']; simpl; auto.
  destruct n; simpl; tauto.
Qed.

Lemma safe_conseq {R : Type} (t : itree E R) s (Q Q' : R -> Device -> Prop) :
  (forall r s', Q r s' -> Q' r s') -> safe I X t s Q -> safe I X t s Q'.
Proof.
  intros HQ H n. destruct (H n) as [HI Ho]. split; [exact HI|].
  destruct (outcome (exec n t s)); auto.
Qed.

Lemma safe_iter {J R : Type} (L : J -> Device -> Prop)
    (body : J -> itree E (J + R)) (Q : R -> Device -> Prop) :
  (forall i s, L i s ->
     safe I X (body i) s
       (fun lr s' => match lr with
                     | inl i' => L i' s'
                     | inr r => I s' /\ Q r s'
                     end)) ->
  forall i s, L i s -> safe I X (ITree.iter body i) s Q.
Proof.
  intros Hbody i s HL n. revert i s HL.
  induction n as [n IH] using lt_wf_ind. intros i s HL.
  rewrite exec_iter, exec_bind.
  destruct (Hbody i s HL n) as [HI Ho].
  pose proof (fuel_left_le n (body i) s) as Hle.
  destruct (outcome (exec n (body i) s)) as [[i'|r]|z|]; simpl; auto.
  - destruct (fuel_left (exec n (body i) s)) as [|m].
    + simpl. split; [|exact Logic.I]. exact (safe_now (Hbody i' _ Ho)).
    + rewrite exec_tau. apply IH; [lia | exact Ho].
  - destruct (fuel_left (exec n (body i) s)) as [|m]; simpl; tauto.
Qed.

Lemma safe_while (L : Device -> Prop) (cond : itree E bool)
    (body : itree E unit) (Q : unit -> Device -> Prop) :
  (forall s, L s ->
     safe I X cond s
       (fun c s' => if c then safe I X body s' (fun _ s'' => L s'')
                   else I s' /\ Q tt s')) ->
  forall s, L s -> safe I X (while_ cond body) s Q.
Proof.
  intros H s HL. unfold while_.
  apply (safe_iter (fun _ : unit => L)); [|exact HL].
  clear s HL. intros [] s HL. apply safe_bind.
  eapply safe_conseq; [|exact (H s HL)].
  intros [|] s' Hc; cbn beta iota.
  - apply safe_bind. eapply safe_conseq; [|exact Hc].
    intros [] s'' HL'. cbn beta.
    apply safe_ret; [|exact HL']. exact (safe_now (H s'' HL')).
  - apply safe_ret; tauto.
Qed.

End Safe.

(** ** Rules for [reach] *)

Lemma reach_observe {R : Type} (t u : itree E R) s Q :
  observe t = observe u -> reach u s Q -> reach t s Q.
Proof.
  intros H [n Hn]. exists n. now rewrite (exec_observe t u H).
Qed.

Lemma reach_ret {R : Type} (r : R) s (Q : R + Z -> Device -> Prop) :
  Q (inl r) s -> reach (Ret r) s Q.
Proof. intros H. exists 1. exact H. Qed.

Lemma reach_tau {R : Type} (t : itree E R) s Q :
  reach t s Q -> reach (Tau t) s Q.
Proof. intros [n Hn]. exists (S n). exact Hn. Qed.

Lemma reach_trigger {R : Type} (e : E R) s (Q : R + Z -> Device -> Prop) :
  match handle e s with
  | (inl x, s') => Q (inl x) s'
  | (inr z, s') => Q (inr z) s'
  end ->
  reach (ITree.trigger e) s Q.
Proof.
  intros H. exists 2. simpl.
  destruct (handle e s) as [[x|z] s']; exact H.
Qed.

Lemma reach_bind {R S : Type} (t : itree E R) (k : R -> itree E S) s Q :
  reach t s (fun o s' => match o with
                         | inl r => reach (k r) s' Q
                         | inr z => Q (inr z) s'
                         end) ->
  reach (ITree.bind t k) s Q.
Proof.
  intros [n Hn].
  destruct (outcome (exec n t s)) as [r|z|] eqn:Ho; [| |contradiction].
  - destruct Hn as [m Hm]. exists (n + m).
    rewrite exec_bind, exec_more by (rewrite Ho; discriminate).
    rewrite Ho. cbn [outcome final fuel_left].
    rewrite Nat.add_comm, exec_more
      by (intros Hr; rewrite Hr in Hm; exact Hm).
    exact Hm.
  - exists n. rewrite exec_bind, Ho. exact Hn.
Qed.

Lemma reach_conseq {R : Type} (t : itree E R) s
    (Q Q' : R + Z -> Device -> Prop) :
  (forall o s', Q o s' -> Q' o s') -> reach t s Q -> reach t s Q'.
Proof.
  intros HQ [n Hn]. exists n.
  destruct (outcome (exec n t s)); auto.
Qed.

Lemma reach_iter {J R : Type} (body : J -> itree E (J + R)) (i : J) s Q :
  reach (ITree.bind (body i)
           (fun lr => match lr with
                      | inl l => Tau (ITree.iter body l)
                      | inr r => Ret r
                      end)) s Q ->
  reach (ITree.iter body i) s Q.
Proof. intros [n Hn]. exists n. rewrite exec_iter. exact Hn. Qed.

Lemma reach_while (cond : itree E bool) (body : itree E unit) s Q :
  reach cond s
    (fun o s' =>
       match o with
       | inl true =>
           reach body s'
             (fun o' s'' => match o' with
                            | inl _ => reach (while_ cond body) s'' Q
                            | inr z => Q (inr z) s''
                            end)
       | inl false => Q (inl tt) s'
       | inr z => Q (inr z) s'
       end) ->
  reach (while_ cond body) s Q.
Proof.
  intros H. unfold while_ at 1.
  apply reach_iter, reach_bind, reach_bind.
  eapply reach_conseq; [|exact H].
  intros [[|]|z] s' Hc; cbn beta iota; [| |exact Hc].
  - apply reach_bind. eapply reach_conseq; [|exact Hc].
    intros [[]|z] s'' Hb; cbn beta iota; [|exact Hb].
    apply reach_ret. cbn beta iota. apply reach_tau. exact Hb.
  - apply reach_ret. cbn beta iota. apply reach_ret. exact Hc.
Qed.

(** ** Paths *)

Lemma steps_app st l st' l' st'' :
  steps st l st' -> steps st' l' st'' -> steps st (l ++ l') st''.
Proof.
  induction 1 as [|st o st1 l st2 He Hs IH]; intros H'; simpl; [exact H'|].
  eapply steps_cons; [exact He | now apply IH].
Qed.

Lemma steps_app_inv st l l' st'' :
  steps st (l ++ l') st'' ->
  exists st', steps st l st' /\ steps st' l' st''.
Proof.
  revert st. induction l as [|o l IH]; intros st H; simpl in *.
  - exists st. split; [apply steps_nil | exact H].
  - inversion H as [|? ? st1 ? ? He Hs]; subst.
    destruct (IH _ Hs) as (st' & H1 & H2).
    exists st'. split; [eapply steps_cons; eauto | exact H2].
Qed.

Lemma path_start : path [] Start.
Proof. apply steps_nil. Qed.

Lemma path_step l st o st' : path l st -> edge st o st' -> path (l ++ [o]) st'.
Proof.
  intros Hp He. eapply steps_app; [exact Hp|].
  eapply steps_cons; [exact He | apply steps_nil].
Qed.

Lemma path_step_inv l o st' :
  path (l ++ [o]) st' -> exists st, path l st /\ edge st o st'.
Proof.
  intros H. destruct (steps_app_inv _ _ H) as (st & H1 & H2).
  exists st. split; [exact H1|].
  inversion H2 as [|? ? st1 ? ? He Hs]; subst. now inversion Hs; subst.
Qed.

(** A log on a path passes through a stage before each of its entries. *)
Lemma path_split p o q st :
  path (p ++ o :: q) st ->
  exists st1 st2, path p st1 /\ edge st1 o st2 /\ steps st2 q st.
Proof.
  intros H. destruct (steps_app_inv _ _ H) as (st1 & H1 & H2).
  inversion H2 as [|? ? st2 ? ? He Hs]; subst. now exists st1, st2.
Qed.

(** Induction along a path, one entry at a time. *)
Lemma path_ind_step (P : list Obs -> Stage -> Prop) :
  P [] Start ->
  (forall l st o st', path l st -> P l st -> edge st o st' -> P (l ++ [o]) st') ->
  forall l st, path l st -> P l st.
Proof.
  intros H0 Hstep l. induction l as [|o l IH] using rev_ind; intros st Hp.
  - inversion Hp; subst. exact H0.
  - destruct (path_step_inv _ _ Hp) as (st0 & Hp0 & He).
    eapply Hstep; eauto.
Qed.

(** ** What the callbacks of [main] do *)

Lemma append_log_nil s : append_log [] s = s.
Proof. destruct s; unfold append_log; simpl. now rewrite app_nil_r. Qed.

Lemma append_log_app l1 l2 s :
  append_log l2 (append_log l1 s) = append_log (l1 ++ l2) s.
Proof. unfold append_log; simpl. now rewrite app_assoc. Qed.

Lemma serve_updates updates : forall s,
  fold_left
    (fun s' flight_mode =>
       snd (run_callback (flight_mode_lambda flight_mode)
              (record (FlightModeCallback flight_mode) s')))
    updates s
  = append_log (status_notes updates (last_location s)) s.
Proof.
  induction updates as [|fm updates IH]; intros s; simpl.
  - now rewrite append_log_nil.
  - rewrite IH. unfold record. simpl. rewrite !append_log_app. reflexivity.
Qed.

Lemma notify_subscribed s :
  flight_mode_callback s = Some flight_mode_lambda ->
  notify s =
  append_log
    (status_notes (flight_mode_updates w (length (log s))) (last_location s)) s.
Proof. intros H. unfold notify. rewrite H. apply serve_updates. Qed.

Lemma notify_unsubscribed s : flight_mode_callback s = None -> notify s = s.
Proof. intros H. unfold notify. now rewrite H. Qed.

Lemma path_notes st updates loc : serving st = true ->
  forall l, path l st -> path (l ++ status_notes updates loc) st.
Proof.
  intros Hs. induction updates as [|fm updates IH]; intros l Hl; simpl.
  - now rewrite app_nil_r.
  - change (l ++ ?a :: ?b :: ?c :: ?r) with (l ++ [a; b; c] ++ r).
    rewrite app_assoc. apply IH.
    change [?a; ?b; ?c] with ([a] ++ [b] ++ [c]). rewrite !app_assoc.
    repeat (eapply path_step; [|now constructor]). exact Hl.
Qed.

(** ** [main] stays on its path *)

Lemma notify_at_stage st s :
  at_stage st s -> waits st = true -> at_stage st (notify s).
Proof.
  intros [Hp Hf] Hw.
  destruct (subscribed st) eqn:Hsub.
  - assert (Hs : serving st = true) by (destruct st; simpl in *; congruence).
    assert (Hcb : flight_mode_callback s = Some flight_mode_lambda)
      by (unfold frame in Hf; destruct st; simpl in *; try discriminate; tauto).
    rewrite (notify_subscribed _ Hcb). split.
    + simpl. now apply path_notes.
    + exact Hf.
  - assert (Hcb : flight_mode_callback s = None)
      by (unfold frame in Hf; destruct st; simpl in *; try discriminate; tauto).
    rewrite (notify_unsubscribed _ Hcb). now split.
Qed.

Lemma at_stage_on_path st s : at_stage st s -> resting st = true -> on_path s.
Proof. intros H Hr. now exists st. Qed.

Lemma safe_call {R S : Type} (m : mainE R) (k : R -> itree E S) st s Q :
  at_stage st s -> resting st = true ->
  (blocking m = true -> waits st = true) ->
  (forall s1, at_stage st s1 ->
     match perform_main m s1 with
     | (inl x, s') => safe on_path aborted (k x) (record (obs_main m x) s') Q
     | (inr z, s') => on_path s' /\ aborted z s'
     end) ->
  safe on_path aborted (ITree.bind (ITree.trigger (inr1 m)) k) s Q.
Proof.
  intros Hst Hr Hb H. apply safe_bind, safe_trigger.
  - exact (at_stage_on_path Hst Hr).
  - unfold handle.
    assert (H1 : at_stage st (if blocking m then notify s else s)).
    { destruct (blocking m); [apply notify_at_stage|]; auto. }
    specialize (H _ H1).
    destruct (perform_main m (if blocking m then notify s else s))
      as [[x|z] s']; [|exact H].
    split; [exact (safe_now H) | exact H].
Qed.

Lemma safe_call_last {R : Type} (m : mainE R) st s Q :
  at_stage st s -> resting st = true ->
  (blocking m = true -> waits st = true) ->
  (forall s1, at_stage st s1 ->
     match perform_main m s1 with
     | (inl x, s') =>
         on_path (record (obs_main m x) s') /\ Q x (record (obs_main m x) s')
     | (inr z, s') => on_path s' /\ aborted z s'
     end) ->
  safe on_path aborted (ITree.trigger (inr1 m)) s Q.
Proof.
  intros Hst Hr Hb H. apply safe_trigger.
  - exact (at_stage_on_path Hst Hr).
  - unfold handle.
    assert (H1 : at_stage st (if blocking m then notify s else s)).
    { destruct (blocking m); [apply notify_at_stage|]; auto. }
    specialize (H _ H1).
    destruct (perform_main m (if blocking m then notify s else s))
      as [[x|z] s']; exact H.
Qed.

Lemma safe_cout {S : Type} line (k : unit -> itree E S) st s Q :
  at_stage st s -> resting st = true ->
  safe on_path aborted (k tt) (record (O_cout line) s) Q ->
  safe on_path aborted (ITree.bind (ITree.trigger (inl1 (cout line))) k) s Q.
Proof.
  intros Hst Hr H. apply safe_bind, safe_trigger.
  - exact (at_stage_on_path Hst Hr).
  - simpl. split; [exact (safe_now H) | exact H].
Qed.

Ltac error_exit_proof s :=
  let Hon := fresh in let Hok := fresh in let Hfail := fresh in
  intros Hon Hok Hfail;
  destruct (result_eq_dec _ _) as [Heq|Hne];
  [ apply safe_ret; auto
  | destruct (Hfail Hne) as (o & Hfo & [Hp Hf] & Hd);
    assert (Ha : at_stage (Aborted o) (record (O_cerr (diagnostic o)) s))
      by (split;
          [ simpl; eapply path_step; [exact Hp | constructor]
          | destruct o; exact Hf ]);
    rewrite Hd in Ha;
    apply safe_bind, safe_trigger; [exact Hon|]; simpl;
    split; [exact (at_stage_on_path Ha eq_refl)|];
    apply safe_bind, safe_trigger; [exact (at_stage_on_path Ha eq_refl)|];
    simpl; split; [exact (at_stage_on_path Ha eq_refl)|];
    split; [reflexivity|]; exists o; now split ].

Lemma safe_action_error_exit r msg s (Q : unit -> Device -> Prop) :
  on_path s ->
  (r = SUCCESS -> Q tt s) ->
  (r <> SUCCESS ->
   exists o, failed o /\ at_stage (Failed o) s /\
     diagnostic o = [Str ERROR_CONSOLE_TEXT; Str msg; Str (result_str r);
                     Str NORMAL_CONSOLE_TEXT]) ->
  safe on_path aborted (action_error_exit r msg) s Q.
Proof. unfold action_error_exit. error_exit_proof s. Qed.

Lemma safe_follow_me_error_exit r msg s (Q : unit -> Device -> Prop) :
  on_path s ->
  (r = SUCCESS -> Q tt s) ->
  (r <> SUCCESS ->
   exists o, failed o /\ at_stage (Failed o) s /\
     diagnostic o = [Str ERROR_CONSOLE_TEXT; Str msg; Str (result_str r);
                     Str NORMAL_CONSOLE_TEXT]) ->
  safe on_path aborted (follow_me_error_exit r msg) s Q.
Proof. unfold follow_me_error_exit. error_exit_proof s. Qed.

Lemma safe_connection_error_exit r msg s (Q : unit -> Device -> Prop) :
  on_path s ->
  (r = SUCCESS -> Q tt s) ->
  (r <> SUCCESS ->
   exists o, failed o /\ at_stage (Failed o) s /\
     diagnostic o = [Str ERROR_CONSOLE_TEXT; Str msg; Str (result_str r);
                     Str NORMAL_CONSOLE_TEXT]) ->
  safe on_path aborted (connection_error_exit r msg) s Q.
Proof. unfold connection_error_exit. error_exit_proof s. Qed.

Ltac path_tac Hp :=
  simpl; repeat (eapply path_step; [|constructor; auto]); exact Hp.

Ltac frame_tac Hf :=
  unfold frame in Hf |- *; simpl in Hf |- *;
  intuition (auto; try discriminate).

(** The device has arrived at [st']: forget how it got there. *)
Ltac arrive st' :=
  match goal with
  | H : at_stage _ ?s0 |- safe _ _ _ ?s' _ =>
      let Hn := fresh in
      assert (Hn : at_stage st' s')
        by (destruct H as [Hp Hf]; split; [path_tac Hp | frame_tac Hf]);
      revert Hn; generalize s'; clear H; clear dependent s0; intros s Hs
  end.

Ltac call :=
  match goal with
  | H : at_stage _ ?s0
    |- safe _ _ (ITree.bind (ITree.trigger (subevent _ (cout _))) _) ?s0 _ =>
      eapply safe_cout; [exact H | reflexivity |]
  | H : at_stage _ ?s0 |- safe _ _ (ITree.bind _ _) ?s0 _ =>
      eapply safe_call;
      [exact H | reflexivity | first [reflexivity | discriminate] |];
      clear H; clear s0; intros s Hs;
      cbv [resum ReSum_id id_ Id_IFun]; cbn [perform_main obs_main]
  | H : at_stage _ ?s0 |- safe _ _ (ITree.trigger _) ?s0 _ =>
      eapply safe_call_last;
      [exact H | reflexivity | first [reflexivity | discriminate] |];
      clear H; clear s0; intros s Hs;
      cbv [resum ReSum_id id_ Id_IFun]; cbn [perform_main obs_main]
  end.

Ltac on_path_tac :=
  match goal with
  | H : at_stage ?st _ |- on_path _ =>
      destruct H as [Hp Hf]; eexists;
      split; [split; [path_tac Hp | frame_tac Hf] | reflexivity]
  end.

(** After a checked command: the two cases of its error handler. *)
Ltac checked_command st' c r :=
  let o := constr:(c r) in
  let Heq := fresh "Heq" in let Hne := fresh "Hne" in
  destruct (result_eq_dec r SUCCESS) as [Heq|Hne];
  [ rewrite Heq; arrive st'; apply safe_bind;
    first [apply safe_action_error_exit
          |apply safe_follow_me_error_exit
          |apply safe_connection_error_exit];
    [on_path_tac | intros _ | intros Hne; now elim Hne]
  | arrive (Failed o); apply safe_bind;
    first [apply safe_action_error_exit
          |apply safe_follow_me_error_exit
          |apply safe_connection_error_exit];
    [ on_path_tac
    | intros Heq; now elim Hne
    | intros _; exists o;
      match goal with
      | H : at_stage _ _ |- _ =>
          split; [exact Hne | split; [exact H | reflexivity]]
      end ] ].

Lemma main_safe : safe on_path aborted main init finished.
Proof.
  assert (H0 : at_stage Start init)
    by (split; [apply path_start | unfold frame; simpl; repeat split; auto; discriminate]).
  revert H0. generalize init. intros s Hs. unfold main.
  call.
  checked_command Polling_connected O_add_udp_connection
    (add_udp_connection_result w).
  (* the two polls *)
  apply safe_bind. apply (safe_while (at_stage Polling_connected)); [|exact Hs].
  clear s Hs. intros s Hs. call.
  destruct (is_connected_at w (connected_polls s)); cbn [negb].
  2:{ arrive Waiting_connected. apply safe_ret; [on_path_tac|].
      call. arrive Sleeping_connected. call.
      split; [on_path_tac|].
      destruct Hs as [Hp Hf]. split; [path_tac Hp | frame_tac Hf]. }
  arrive Polling_health. apply safe_ret; [on_path_tac|].
  split; [on_path_tac|].
  apply safe_bind. apply (safe_while (at_stage Polling_health)); [|exact Hs].
  clear s Hs. intros s Hs. call.
  destruct (health_all_ok_at w (health_polls s)); cbn [negb].
  2:{ arrive Waiting_health. apply safe_ret; [on_path_tac|].
      call. arrive Sleeping_health. call.
      split; [on_path_tac|].
      destruct Hs as [Hp Hf]. split; [path_tac Hp | frame_tac Hf]. }
  arrive Discovered. apply safe_ret; [on_path_tac|].
  split; [on_path_tac|].
  call. arrive Arming.
  call. checked_command Armed O_arm (arm_result w).
  call. arrive Subscribing.
  call. arrive Taking_off.
  call. checked_command Airborne O_takeoff (takeoff_result w).
  call. arrive Settling.
  call. arrive Starting.
  call. checked_command Started O_start (start_result w).
  call. generalize (live_providers s) as p. intros p. arrive (Registering p).
  call. arrive Following.
  (* the event loop *)
  apply safe_bind. unfold io_run.
  apply (safe_while (at_stage Following)); [|exact Hs].
  clear s Hs. intros s Hs. call. unfold run_one.
  assert (Hcb : location_callback s = Some location_lambda)
    by (destruct Hs as [_ Hf]; unfold frame in Hf; simpl in Hf; tauto).
  rewrite Hcb.
  destruct (location_updates w (samples s)) as [[lat lon]|] eqn:Hu.
  - cbn [run_callback location_lambda perform_cb snd obs_cb].
    match goal with
    | |- on_path ?s' /\ _ => assert (Hn : at_stage Following s')
    end.
    { destruct Hs as [Hp Hf]. destruct (result_eq_dec _ _);
        (split; [path_tac Hp | frame_tac Hf]). }
    split; [exact (at_stage_on_path Hn eq_refl)|].
    apply safe_ret; [exact (at_stage_on_path Hn eq_refl) | exact Hn].
  - split; [on_path_tac|]. split; [on_path_tac|].
    arrive Stopping.
    call. checked_command Landing O_stop (stop_result w).
    call. checked_command Landed O_land (land_result w).
    call. arrive Finishing.
    call. arrive Finished.
    apply safe_ret; [on_path_tac|]. now split.
Qed.

(** ** The log is sound for every program *)

Lemma received_app l l' : received (l ++ l') = received l ++ received l'.
Proof. apply flat_map_app. Qed.

Lemma targets_app l l' : targets (l ++ l') = targets l ++ targets l'.
Proof. apply flat_map_app. Qed.

Lemma served_refl s : served s s.
Proof.
  repeat split; auto. exists []. rewrite app_nil_r. repeat split; auto.
Qed.

Lemma served_trans s1 s2 s3 : served s1 s2 -> served s2 s3 -> served s1 s3.
Proof.
  intros ((l & Hl & Hw & Hr & Hn) & H1) ((l' & Hl' & Hw' & Hr' & Hn') & H2).
  split.
  - exists (l ++ l'). rewrite Hl', Hl, app_assoc, received_app, filter_app.
    rewrite Hr, Hr', Hn, Hn'. repeat split; auto. now apply Forall_app.
  - intuition congruence.
Qed.

Lemma served_record o s :
  from_world o -> received [o] = [] -> is_new o = false ->
  served s (record o s).
Proof.
  intros Ho Hr Hn. repeat split; auto. exists [o]. simpl. rewrite Hn.
  repeat split; auto.
Qed.

Lemma run_callback_served {A : Type} (c : callback A) : forall s,
  served s (snd (run_callback c s)).
Proof.
  induction c as [a|X e k IH]; intros s; simpl; [apply served_refl|].
  destruct (perform_cb e s) as [x s'] eqn:He.
  eapply served_trans; [|apply IH].
  destruct e; simpl in He; inversion He; subst; clear He.
  - eapply served_trans; [|apply served_record; simpl; eauto].
    destruct (result_eq_dec _ _); [|apply served_refl].
    repeat split; auto. exists []. simpl. rewrite app_nil_r. repeat split; auto.
  - now apply served_record.
  - now apply served_record.
Qed.

Lemma serve_all_served (cb : FlightMode -> callback unit) t updates :
  (forall fm, In fm updates -> In fm (flight_mode_updates w t)) ->
  forall s,
  served s
    (fold_left
       (fun s' flight_mode =>
          snd (run_callback (cb flight_mode)
                 (record (FlightModeCallback flight_mode) s')))
       updates s).
Proof.
  induction updates as [|fm updates IH]; intros Hin s; simpl;
    [apply served_refl|].
  eapply served_trans; [|apply IH; intros; apply Hin; now right].
  eapply served_trans; [|apply run_callback_served].
  apply served_record; simpl; auto.
  exists t. apply Hin. now left.
Qed.

Lemma notify_served s : served s (notify s).
Proof.
  unfold notify. destruct (flight_mode_callback s) as [cb|]; [|apply served_refl].
  now apply serve_all_served with (t := length (log s)).
Qed.

Lemma served_sound s s' : served s s' -> sound s -> sound s'.
Proof.
  intros ((l & Hl & Hw & Hr & Hn) & _ & _ & Hs & _ & _ & Hp) (H1 & H2 & H3 & H4).
  unfold sound. rewrite Hl, Hs, Hp, received_app, filter_app, Hr, Hn, !app_nil_r.
  repeat split; auto. now apply Forall_app.
Qed.

Lemma run_one_sound s : sound s -> sound (snd (run_one s)).
Proof.
  intros Hs. unfold run_one.
  destruct (location_callback s) as [cb|]; [|exact Hs].
  destruct (location_updates w (samples s)) as [[lat lon]|] eqn:Hu; [|exact Hs].
  cbn [snd].
  destruct (run_callback_served (cb lat lon) (record (LocationCallback lat lon) s))
    as ((l & Hl & Hw & Hr & Hn) & _ & _ & Hsa & _ & _ & Hp).
  destruct Hs as (H1 & H2 & H3 & H4).
  unfold sound. simpl in *. rewrite Hl, Hsa, Hp.
  rewrite !received_app, !filter_app, Hr, Hn, H2, Hu. simpl.
  rewrite !app_nil_r. repeat split; auto.
  - repeat (apply Forall_app; split); auto. constructor; [|constructor].
    now exists (samples s).
  - intros j Hj. destruct (Nat.eq_dec j (samples s)) as [->|Hne].
    + now rewrite Hu.
    + apply H3. lia.
Qed.

Lemma sound_record o s :
  from_world o -> received [o] = [] -> is_new o = false ->
  sound s -> sound (record o s).
Proof. intros Ho Hr Hn. apply served_sound. now apply served_record. Qed.

Lemma sound_same s s' :
  log s' = log s -> samples s' = samples s ->
  live_providers s' = live_providers s -> sound s -> sound s'.
Proof.
  intros Hl Hs Hp H. unfold sound. rewrite Hl, Hs, Hp. exact H.
Qed.

Lemma handle_sound {X : Type} (e : E X) s :
  sound s -> sound (snd (handle e s)).
Proof.
  intros Hs. destruct e as [c|m]; simpl.
  - pose proof (run_callback_served (cb_call c (fun x => cb_return x)) s) as H.
    simpl in H. destruct (perform_cb c s) as [x s']. simpl in *.
    exact (served_sound H Hs).
  - assert (H1 : sound (if blocking m then notify s else s)).
    { destruct (blocking m); [|exact Hs].
      exact (served_sound (notify_served s) Hs). }
    revert H1. generalize (if blocking m then notify s else s) as s1.
    intros s1 H1.
    destruct m; simpl;
      try solve [apply sound_record; simpl; eauto;
                 try (eapply sound_same; [| | |exact H1]; reflexivity)].
    + destruct H1 as (Hw & Hf & Hk & Hl). unfold sound. simpl.
      rewrite received_app, filter_app, length_app, Hl. simpl.
      rewrite app_nil_r. repeat split; auto; [|lia].
      apply Forall_app. split; [exact Hw | now repeat constructor].
    + pose proof (run_one_sound H1) as H. destruct (run_one s1) as [b s'].
      simpl in *. now apply sound_record.
    + exact H1.
Qed.

Lemma exec_sound {R : Type} n : forall (t : itree E R) s,
  sound s -> sound (final (exec n t s)).
Proof.
  induction n as [|n IH]; intros t s Hs; simpl; [exact Hs|].
  destruct (observe t) as [r|t'|X e k]; simpl; auto.
  pose proof (handle_sound e Hs) as H.
  destruct (handle e s) as [[x|z] s']; simpl in *; auto.
Qed.

Lemma run_sound n : sound (final (run n)).
Proof.
  apply exec_sound. unfold sound, init. simpl. repeat split; auto.
  intros j Hj. lia.
Qed.

(** ** [main] ends *)

Lemma served_counted c h k s s' : served s s' -> counted c h k s -> counted c h k s'.
Proof.
  intros (_ & H1 & H2 & H3 & _) (Hc & Hh & Hk). unfold counted. intuition congruence.
Qed.

Lemma reach_call {R S : Type} (m : mainE R) (k : R -> itree E S) s Q :
  (forall s1, served s s1 ->
     match perform_main m s1 with
     | (inl x, s') => reach (k x) (record (obs_main m x) s') Q
     | (inr z, s') => Q (inr z) s'
     end) ->
  reach (ITree.bind (ITree.trigger (inr1 m)) k) s Q.
Proof.
  intros H. apply reach_bind, reach_trigger. unfold handle.
  assert (H1 : served s (if blocking m then notify s else s))
    by (destruct (blocking m); [apply notify_served | apply served_refl]).
  specialize (H _ H1).
  destruct (perform_main m (if blocking m then notify s else s))
    as [[x|z] s']; exact H.
Qed.

Lemma reach_call_last {R : Type} (m : mainE R) s Q :
  (forall s1, served s s1 ->
     match perform_main m s1 with
     | (inl x, s') => Q (inl x) (record (obs_main m x) s')
     | (inr z, s') => Q (inr z) s'
     end) ->
  reach (ITree.trigger (inr1 m)) s Q.
Proof.
  intros H. apply reach_trigger. unfold handle.
  assert (H1 : served s (if blocking m then notify s else s))
    by (destruct (blocking m); [apply notify_served | apply served_refl]).
  specialize (H _ H1).
  destruct (perform_main m (if blocking m then notify s else s))
    as [[x|z] s']; exact H.
Qed.

Lemma reach_cout {S : Type} line (k : unit -> itree E S) s Q :
  reach (k tt) (record (O_cout line) s) Q ->
  reach (ITree.bind (ITree.trigger (inl1 (cout line))) k) s Q.
Proof. intros H. apply reach_bind, reach_trigger. exact H. Qed.

Ltac reach_exit :=
  apply reach_bind, reach_trigger; simpl;
  apply reach_bind, reach_trigger; simpl; exact Logic.I.

Lemma reach_action_error_exit r msg s (P : unit -> Device -> Prop) :
  (r = SUCCESS -> P tt s) ->
  reach (action_error_exit r msg) s (unless_exit P).
Proof.
  intros H. unfold action_error_exit.
  destruct (result_eq_dec r SUCCESS); [apply reach_ret; simpl; auto | reach_exit].
Qed.

Lemma reach_follow_me_error_exit r msg s (P : unit -> Device -> Prop) :
  (r = SUCCESS -> P tt s) ->
  reach (follow_me_error_exit r msg) s (unless_exit P).
Proof.
  intros H. unfold follow_me_error_exit.
  destruct (result_eq_dec r SUCCESS); [apply reach_ret; simpl; auto | reach_exit].
Qed.

Lemma reach_connection_error_exit r msg s (P : unit -> Device -> Prop) :
  (r = SUCCESS -> P tt s) ->
  reach (connection_error_exit r msg) s (unless_exit P).
Proof.
  intros H. unfold connection_error_exit.
  destruct (result_eq_dec r SUCCESS); [apply reach_ret; simpl; auto | reach_exit].
Qed.

(** Binding under a postcondition that asks nothing of an exit. *)
Lemma reach_then {R S : Type} (t : itree E R) (k : R -> itree E S) s
    (P : S -> Device -> Prop) :
  reach t s (unless_exit (fun r s' => reach (k r) s' (unless_exit P))) ->
  reach (ITree.bind t k) s (unless_exit P).
Proof.
  intros H. apply reach_bind. eapply reach_conseq; [|exact H].
  intros [r|z] s'; simpl; auto.
Qed.

(** The poll for the heartbeat ends when the device is seen. *)
Lemma reach_connected a : forall s c h k,
  is_connected_at w a = true -> counted c h k s -> c <= a ->
  reach
    (while_ (b <- trigger is_connected ;; Ret (negb b))
       (trigger (cout [Str "Wait for device to connect via heartbeat"]) ;;
        trigger (sleep_for (seconds 1))))
    s (unless_exit (fun _ s' => exists c', counted c' h k s')).
Proof.
  intros s c h k Ha. remember (a - c) as d eqn:Hd. revert s c Hd.
  induction d as [|d IH]; intros s c Hd Hc Hle;
    apply reach_while, reach_call; intros s1 H1;
    pose proof (served_counted H1 Hc) as (Hc1 & Hh1 & Hk1);
    cbv [resum ReSum_id id_ Id_IFun]; cbn [perform_main obs_main]; rewrite Hc1.
  - replace c with a by lia. rewrite Ha. apply reach_ret. simpl.
    exists (1 + connected_polls s1). repeat split; auto.
  - destruct (is_connected_at w c) eqn:Hb; apply reach_ret; cbn [negb].
    + simpl. exists (1 + connected_polls s1). repeat split; auto.
    + apply reach_cout, reach_call_last. intros s2 H2.
      cbv [resum ReSum_id id_ Id_IFun]; cbn [perform_main obs_main].
      apply (IH _ (S c)); [lia | | ].
      * apply (served_counted H2). repeat split; simpl; auto; lia.
      * destruct (Nat.eq_dec c a) as [->|]; [congruence | lia].
Qed.

(** The poll for the health ends when the device is ready. *)
Lemma reach_ready a : forall s c h k,
  health_all_ok_at w a = true -> counted c h k s -> h <= a ->
  reach
    (while_ (b <- trigger health_all_ok ;; Ret (negb b))
       (trigger (cout [Str "Waiting for device to be ready"]) ;;
        trigger (sleep_for (seconds 1))))
    s (unless_exit (fun _ s' => exists h', counted c h' k s')).
Proof.
  intros s c h k Ha. remember (a - h) as d eqn:Hd. revert s h Hd.
  induction d as [|d IH]; intros s h Hd Hc Hle;
    apply reach_while, reach_call; intros s1 H1;
    pose proof (served_counted H1 Hc) as (Hc1 & Hh1 & Hk1);
    cbv [resum ReSum_id id_ Id_IFun]; cbn [perform_main obs_main]; rewrite Hh1.
  - replace h with a by lia. rewrite Ha. apply reach_ret. simpl.
    exists (1 + health_polls s1). repeat split; auto.
  - destruct (health_all_ok_at w h) eqn:Hb; apply reach_ret; cbn [negb].
    + simpl. exists (1 + health_polls s1). repeat split; auto.
    + apply reach_cout, reach_call_last. intros s2 H2.
      cbv [resum ReSum_id id_ Id_IFun]; cbn [perform_main obs_main].
      apply (IH _ (S h)); [lia | | ].
      * apply (served_counted H2). repeat split; simpl; auto; lia.
      * destruct (Nat.eq_dec h a) as [->|]; [congruence | lia].
Qed.

Lemma run_callback_samples {A : Type} (c : callback A) s :
  samples (snd (run_callback c s)) = samples s.
Proof. apply (run_callback_served c s). Qed.

(** The event loop ends when the stream stops. *)
Lemma reach_out_of_work a : forall s,
  location_updates w a = None -> samples s <= a ->
  reach io_run s (unless_exit (fun _ _ => True)).
Proof.
  intros s Ha. remember (a - samples s) as d eqn:Hd. revert s Hd.
  induction d as [|d IH]; intros s Hd Hle; unfold io_run;
    apply reach_while, reach_call_last; intros s1 H1;
    assert (Hk1 : samples s1 = samples s) by (apply H1);
    cbv [resum ReSum_id id_ Id_IFun]; cbn [perform_main obs_main];
    unfold run_one; rewrite Hk1;
    destruct (location_callback s1) as [cb|]; try exact Logic.I.
  - replace (samples s) with a by lia. rewrite Ha. exact Logic.I.
  - destruct (location_updates w (samples s)) as [[lat lon]|] eqn:Hu;
      [|exact Logic.I].
    apply reach_ret. cbn beta iota. apply IH; simpl;
      rewrite run_callback_samples; simpl; rewrite Hk1.
    + lia.
    + destruct (Nat.eq_dec (samples s) a) as [e|]; [|lia].
      rewrite e in Hu. congruence.
Qed.

Lemma unless_exit_mono {R : Type} (P P' : R -> Device -> Prop) :
  (forall r s, P r s -> P' r s) ->
  forall o s, unless_exit P o s -> unless_exit P' o s.
Proof. intros H [r|z] s; simpl; auto. Qed.

(** A call after which the number of samples is what it was. *)
Ltac rcall :=
  match goal with
  | Hk : samples ?s0 = _
    |- reach (ITree.bind (ITree.trigger (subevent _ (cout _))) _) ?s0 _ =>
      apply reach_cout;
      match goal with
      | |- reach _ ?s' _ =>
          let H := fresh in
          assert (H : samples s' = samples s0) by reflexivity;
          rewrite Hk in H; revert H; generalize s'; clear Hk; clear s0;
          intros s Hk
      end
  | Hk : samples ?s0 = _ |- reach (ITree.bind _ _) ?s0 _ =>
      let s1 := fresh "s" in let H1 := fresh "H" in
      apply reach_call; intros s1 H1;
      cbv [resum ReSum_id id_ Id_IFun]; cbn [perform_main obs_main];
      try (generalize (live_providers s1); intro);
      match goal with
      | |- reach _ ?s' _ =>
          let H := fresh in
          assert (H : samples s' = samples s0)
            by (simpl; apply H1);
          rewrite Hk in H; revert H; generalize s'; clear Hk H1;
          clear s1; clear s0; intros s Hk
      end
  end.

Lemma main_reach : ends -> reach main init (unless_exit (fun _ _ => True)).
Proof.
  intros Hends. unfold main.
  assert (Hc : counted 0 0 0 init) by (repeat split).
  revert Hc. generalize init. intros s Hc.
  apply reach_call. intros s1 H1.
  cbv [resum ReSum_id id_ Id_IFun]; cbn [perform_main obs_main].
  apply reach_then, reach_connection_error_exit. intros Hconn.
  destruct Hends as [Hf|((a & Ha) & (b & Hb) & Hends)]; [contradiction|].
  apply reach_then. eapply reach_conseq;
    [|apply (reach_connected (a := a) (c := 0) (h := 0) (k := 0)); auto; [|lia]].
  2:{ apply (served_counted (s := s)); [|exact Hc].
      eapply served_trans; [exact H1|]. now apply served_record. }
  apply unless_exit_mono. clear s Hc s1 H1. intros [] s (c & Hc).
  apply reach_then. eapply reach_conseq;
    [|apply (reach_ready (a := b) (c := c) (h := 0) (k := 0)); auto; lia].
  apply unless_exit_mono. clear s Hc. intros [] s (h & _ & _ & Hk).
  rcall. rcall.
  apply reach_then, reach_action_error_exit. intros Harm.
  rcall. rcall. rcall.
  apply reach_then, reach_action_error_exit. intros Htakeoff.
  rcall. rcall. rcall.
  apply reach_then, reach_follow_me_error_exit. intros Hstart.
  destruct Hends as [Hf|[Hf|[Hf|(k & Hfeed)]]]; try contradiction.
  rcall. rcall.
  apply reach_then. eapply reach_conseq;
    [|apply (reach_out_of_work (a := k)); [exact Hfeed | lia]].
  apply unless_exit_mono. clear s Hk. intros [] s _.
  remember (samples s) as k' eqn:Hk. symmetry in Hk.
  rcall.
  apply reach_then, reach_follow_me_error_exit. intros Hstop.
  rcall.
  apply reach_then, reach_action_error_exit. intros Hland.
  rcall. rcall. apply reach_ret. exact Logic.I.
Qed.

Lemma main_ends : ends -> exists n, outcome (run n) <> Running.
Proof.
  intros H. destruct (main_reach H) as [n Hn]. exists n. unfold run.
  destruct (outcome (exec n main init)); [discriminate | discriminate | elim Hn].
Qed.

(** ** What a run of [main] satisfies *)

Lemma run_cases n :
  on_path (final (run n)) /\ sound (final (run n)) /\
  match outcome (run n) with
  | Returned z => finished z (final (run n))
  | Exited z => aborted z (final (run n))
  | Running => True
  end.
Proof.
  destruct (main_safe n) as [H1 H2]. split; [exact H1|].
  split; [apply run_sound | exact H2].
Qed.

(** ** Tables: what the log holds at each point of [main] *)

Lemma snoc_split {A : Type} (l p q : list A) x o :
  l ++ [x] = p ++ o :: q ->
  (q = [] /\ x = o /\ l = p) \/ (exists q', q = q' ++ [x] /\ l = p ++ o :: q').
Proof.
  intros H. destruct q as [|y q] using rev_ind.
  - left. apply app_inj_tail in H. tauto.
  - right. clear IHq. exists q.
    change (p ++ o :: q ++ [y]) with (p ++ (o :: q) ++ [y]) in H.
    rewrite app_assoc in H. apply app_inj_tail in H. destruct H as [-> ->].
    now split.
Qed.

Lemma path_nil st : path [] st -> st = Start.
Proof. intros H. now inversion H. Qed.

Lemma issued_checked l st : path l st -> filter checked l = issued st.
Proof.
  revert l st.
  apply (path_ind_step (fun l st => filter checked l = issued st));
    [reflexivity|].
  intros l st o st' Hp IH He. rewrite filter_app, IH.
  destruct He; simpl; rewrite ?app_nil_r; reflexivity.
Qed.

Lemma filter_transition l :
  filter is_transition l = filter is_transition (filter checked l).
Proof.
  induction l as [|o l IH]; [reflexivity|].
  destruct o; simpl; rewrite IH; reflexivity.
Qed.

(** A failed command is the last but one entry of the log at most. *)
Lemma failed_last l st :
  path l st ->
  forall p o q, l = p ++ o :: q -> checked o = true -> failed o ->
  (st = Failed o /\ q = []) \/ (st = Aborted o /\ q = [O_cerr (diagnostic o)]).
Proof.
  revert l st.
  apply (path_ind_step
           (fun l st =>
              forall p o q, l = p ++ o :: q -> checked o = true -> failed o ->
              (st = Failed o /\ q = []) \/
              (st = Aborted o /\ q = [O_cerr (diagnostic o)]))).
  - intros p o q H. now destruct p.
  - intros l st x st' Hp IH He p o q H Hc Hf.
    apply snoc_split in H. destruct H as [(-> & -> & ->)|(q' & -> & ->)].
    + left. split; [|reflexivity].
      destruct He; try discriminate; try reflexivity; now elim Hf.
    + destruct (IH _ _ _ eq_refl Hc Hf) as [(-> & ->)|(-> & ->)];
        inversion He; subst; try discriminate.
      right. now split.
Qed.

Lemma failed_log l o :
  path l (Failed o) -> exists p, l = p ++ [o] /\ checked o = true /\ failed o.
Proof.
  intros H. destruct l as [|x l] using rev_ind;
    [apply path_nil in H; discriminate|].
  clear IHl. destruct (path_step_inv _ _ H) as (st & Hp & He).
  exists l. inversion He; subst; try discriminate; auto.
Qed.

Lemma aborted_log l o :
  path l (Aborted o) ->
  exists p, l = p ++ [o; O_cerr (diagnostic o)] /\ path (p ++ [o]) (Failed o).
Proof.
  intros H. destruct l as [|x l] using rev_ind;
    [apply path_nil in H; discriminate|].
  clear IHl. destruct (path_step_inv _ _ H) as (st & Hp & He).
  inversion He; subst; try discriminate.
  destruct (failed_log Hp) as (p & -> & _).
  exists p. now rewrite <- app_assoc.
Qed.

Lemma polls_passed l st :
  path l st ->
  (heard st = true -> In (O_is_connected true) l) /\
  (ready st = true -> In (O_health_all_ok true) l).
Proof.
  revert l st.
  apply (path_ind_step
           (fun l st =>
              (heard st = true -> In (O_is_connected true) l) /\
              (ready st = true -> In (O_health_all_ok true) l))).
  - split; discriminate.
  - intros l st o st' Hp [IH1 IH2] He.
    destruct He; simpl in *;
      (split; intros Hh; apply in_or_app; simpl;
       first [ left; auto; fail | right; auto; fail | idtac ]).
    all: try (destruct st; simpl in *; try discriminate; left; auto; fail).
    all: try (destruct o; simpl in *; try discriminate; left; auto; fail).
Qed.

Lemma issued_from_world l st :
  path l st -> Forall from_world l -> Forall from_world (issued st).
Proof.
  intros Hp Hw. rewrite <- (issued_checked Hp).
  apply Forall_forall. intros x Hx. apply filter_In in Hx.
  now apply (proj1 (Forall_forall _ _) Hw).
Qed.

Ltac world_cases :=
  repeat match goal with
         | H : Forall _ (_ :: _) |- _ => inversion H; clear H; subst
         | H : Forall _ [] |- _ => clear H
         end;
  simpl in *; unfold first_failure;
  repeat (destruct (result_eq_dec _ _); try congruence).

Lemma first_failure_failed l o :
  path l (Failed o) -> Forall from_world l -> first_failure = Some o.
Proof.
  intros Hp Hw. pose proof (issued_from_world Hp Hw) as H.
  destruct (failed_log Hp) as (_ & _ & Hc & Hf).
  destruct o; try discriminate; simpl in H; world_cases.
Qed.

Lemma first_failure_aborted l o :
  path l (Aborted o) -> Forall from_world l -> first_failure = Some o.
Proof.
  intros Hp Hw. destruct (aborted_log Hp) as (p & -> & Hp').
  apply (first_failure_failed Hp').
  change (p ++ [o; O_cerr (diagnostic o)])
    with (p ++ [o] ++ [O_cerr (diagnostic o)]) in Hw.
  rewrite app_assoc in Hw. now apply Forall_app in Hw.
Qed.

Lemma first_failure_finished l :
  path l Finished -> Forall from_world l -> first_failure = None.
Proof.
  intros Hp Hw. pose proof (issued_from_world Hp Hw) as H.
  simpl in H. world_cases.
Qed.

(** When a command has failed, the world lets [main] end. *)
Lemma ends_of_failure st s o :
  at_stage st s -> sound s -> st = Failed o \/ st = Aborted o ->
  first_failure = Some o -> ends.
Proof.
  intros [Hp [_ Hx]] (Hw & _) Hst Hff.
  assert (Hpolls : heard st = true ->
            (exists a, is_connected_at w a = true) /\
            (exists b, health_all_ok_at w b = true)).
  { intros Hh. destruct (polls_passed Hp) as [H1 H2].
    assert (Hr : ready st = true) by (destruct Hst; subst; exact Hh).
    split.
    - exact (proj1 (Forall_forall _ _) Hw _ (H1 Hh)).
    - exact (proj1 (Forall_forall _ _) Hw _ (H2 Hr)). }
  unfold ends. unfold first_failure in Hff.
  destruct (result_eq_dec (add_udp_connection_result w) SUCCESS);
    [right | now left].
  destruct (result_eq_dec (arm_result w) SUCCESS).
  2:{ inversion Hff; subst o. destruct Hst; subst st;
        (split; [apply Hpolls | split; [apply Hpolls | now left]]); reflexivity. }
  destruct (result_eq_dec (takeoff_result w) SUCCESS).
  2:{ inversion Hff; subst o. destruct Hst; subst st;
        (split; [apply Hpolls | split; [apply Hpolls | right; now left]]);
        reflexivity. }
  destruct (result_eq_dec (start_result w) SUCCESS).
  2:{ inversion Hff; subst o. destruct Hst; subst st;
        (split; [apply Hpolls | split; [apply Hpolls | right; right; now left]]);
        reflexivity. }
  assert (Hfeed : exists k, location_updates w k = None).
  { exists (samples s). apply Hx.
    destruct (result_eq_dec (stop_result w) SUCCESS);
      [destruct (result_eq_dec (land_result w) SUCCESS); [discriminate|]|];
      inversion Hff; subst o; destruct Hst; subst st; reflexivity. }
  assert (Hh : heard st = true).
  { destruct (result_eq_dec (stop_result w) SUCCESS);
      [destruct (result_eq_dec (land_result w) SUCCESS); [discriminate|]|];
      inversion Hff; subst o; destruct Hst; subst st; reflexivity. }
  split; [apply Hpolls, Hh | split; [apply Hpolls, Hh | auto]].
Qed.

(** C1: a complete run of the mission has issued exactly one command for
    each phase transition that needs one, in the order arm, takeoff,
    start-follow, stop-follow, land; the log holds each command with the
    result it returned, [SUCCESS], before the next one. *)
Theorem complete_run_transitions n z :
  outcome (run n) = Returned z ->
  z = 0%Z /\
  filter is_transition (log (final (run n))) =
  [O_arm SUCCESS; O_takeoff SUCCESS; O_start SUCCESS; O_stop SUCCESS;
   O_land SUCCESS].
Proof.
  intros H. destruct (run_cases n) as (_ & _ & Ho). rewrite H in Ho.
  destruct Ho as (-> & Hp & _). split; [reflexivity|].
  now rewrite filter_transition, (issued_checked Hp).
Qed.

(** C2: when one of the six checked commands has returned a failure, no
    further command is given to the vehicle, the run does not complete,
    and with enough steps the process exits with the non-zero status
    [EXIT_FAILURE], the last line on [cerr] being the diagnostic with the
    message of the command and the reason string of its result. *)
Theorem failure_aborts_mission n p o q :
  log (final (run n)) = p ++ o :: q -> checked o = true -> failed o ->
  Forall (fun o' => is_command o' = false) q /\
  (q = [] \/ q = [O_cerr (diagnostic o)]) /\
  (forall z, outcome (run n) <> Returned z) /\
  (forall z, outcome (run n) = Exited z ->
             z = EXIT_FAILURE /\ q = [O_cerr (diagnostic o)]) /\
  EXIT_FAILURE <> 0%Z /\
  diagnostic o =
    [Str ERROR_CONSOLE_TEXT; Str (failure_message o); Str (reason o);
     Str NORMAL_CONSOLE_TEXT] /\
  exists n' p',
    outcome (run n') = Exited EXIT_FAILURE /\
    log (final (run n')) = p' ++ [o; O_cerr (diagnostic o)].
Proof.
  intros Hl Hc Hf.
  destruct (run_cases n) as ((st & Hst & _) & Hs & Ho).
  pose proof (failed_last (proj1 Hst) _ _ _ Hl Hc Hf) as Hq.
  assert (Hff : first_failure = Some o).
  { destruct Hs as (Hw & _). destruct Hq as [(-> & _)|(-> & _)].
    - exact (first_failure_failed (proj1 Hst) Hw).
    - exact (first_failure_aborted (proj1 Hst) Hw). }
  split; [destruct Hq as [(_ & ->)|(_ & ->)]; repeat constructor|].
  split; [tauto|].
  split.
  { intros z Hz. rewrite Hz in Ho. destruct Ho as (_ & Hp & _).
    destruct (failed_last Hp _ _ _ Hl Hc Hf) as [(? & _)|(? & _)];
      discriminate. }
  split.
  { intros z Hz. rewrite Hz in Ho. destruct Ho as (-> & o' & _ & Hp & _).
    split; [reflexivity|].
    destruct (failed_last Hp _ _ _ Hl Hc Hf) as [(? & _)|(_ & ->)];
      [discriminate | reflexivity]. }
  split; [discriminate|]. split; [reflexivity|].
  assert (Hends : ends).
  { apply (ends_of_failure (st := st) (s := final (run n)) (o := o)); auto.
    destruct Hq as [(-> & _)|(-> & _)]; auto. }
  destruct (main_ends Hends) as [n' Hn'].
  destruct (run_cases n') as (_ & (Hw' & _) & Ho').
  destruct (outcome (run n')) as [z|z|] eqn:Hz; [| |now elim Hn'].
  - destruct Ho' as (_ & Hp' & _).
    rewrite (first_failure_finished Hp' Hw') in Hff. discriminate.
  - destruct Ho' as (-> & o' & _ & Hp' & _).
    pose proof (first_failure_aborted Hp' Hw') as Hff'.
    rewrite Hff in Hff'. inversion Hff'; subst o'.
    destruct (aborted_log Hp') as (p' & Hl' & _).
    exists n', p'. now split.
Qed.

Lemma events_passed l st :
  path l st ->
  (registered st = true -> exists prov, In (O_request_location_updates prov) l) /\
  (exhausted st = false -> ~ In (O_io_run_one false) l) /\
  (subscribed st = true -> In O_flight_mode_async l) /\
  length (filter is_new l) = providers_at st.
Proof.
  revert l st.
  apply (path_ind_step
           (fun l st =>
              (registered st = true ->
               exists prov, In (O_request_location_updates prov) l) /\
              (exhausted st = false -> ~ In (O_io_run_one false) l) /\
              (subscribed st = true -> In O_flight_mode_async l) /\
              length (filter is_new l) = providers_at st)).
  - repeat split; try discriminate. intros _ [].
  - intros l st o st' Hp (IH1 & IH2 & IH3 & IH4) He.
    rewrite filter_app, length_app.
    assert (Hin : forall x, In x (l ++ [o]) <-> In x l \/ x = o).
    { intros x. rewrite in_app_iff. simpl. intuition. }
    destruct He; simpl in *;
      (split; [intros Hh | split; [intros Hh | split; [intros Hh|]]]);
      try discriminate;
      try (rewrite IH4; simpl; try lia;
           first [ destruct st; simpl; try discriminate; lia
                 | destruct o; simpl; lia ]);
      try (rewrite Hin; intros [Hx|Hx]; [|discriminate]; revert Hx;
           first [ apply IH2; reflexivity
                 | apply IH2; destruct st; simpl in *; try discriminate;
                   reflexivity
                 | apply IH2; destruct o; simpl in *; try discriminate;
                   reflexivity ]);
      try (destruct IH1 as [prov Hprov];
           [ first [ reflexivity | assumption
                   | destruct st; simpl in *; try discriminate; reflexivity ]
           | exists prov; apply Hin; now left ]);
      try (apply Hin; left; apply IH3;
           first [ reflexivity | assumption
                 | destruct st; simpl in *; try discriminate; reflexivity ]);
      try (eexists; apply Hin; right; reflexivity);
      try (apply Hin; right; reflexivity).
Qed.

Lemma targets_received l st :
  path l st ->
  match st with
  | Delivering lat lon =>
      exists rcv, received l = rcv ++ [(lat, lon)] /\
                  targets l = List.map target_of_sample rcv
  | _ => targets l = List.map target_of_sample (received l)
  end.
Proof.
  revert l st.
  apply (path_ind_step
           (fun l st =>
              match st with
              | Delivering lat lon =>
                  exists rcv, received l = rcv ++ [(lat, lon)] /\
                              targets l = List.map target_of_sample rcv
              | _ => targets l = List.map target_of_sample (received l)
              end)); [reflexivity|].
  intros l st o st' Hp IH He. rewrite targets_app, received_app.
  destruct He; simpl; rewrite ?app_nil_r; try exact IH.
  - exists (received l). now split.
  - destruct IH as (rcv & -> & ->). now rewrite List.map_app.
Qed.

Lemma commands_app l l' : commands (l ++ l') = commands l ++ commands l'.
Proof. apply filter_app. Qed.

Lemma targets_of_set_targets l :
  Forall2 (fun o loc => exists r, o = O_set_target_location loc r)
    (filter is_set_target l) (targets l).
Proof.
  induction l as [|o l IH]; [constructor|].
  destruct o; simpl; auto. constructor; eauto.
Qed.

Lemma no_targets l : targets l = [] -> filter is_set_target l = [].
Proof.
  intros H. pose proof (targets_of_set_targets l) as H2. rewrite H in H2.
  now inversion H2.
Qed.

Lemma commands_without_targets l :
  filter is_set_target l = [] -> commands l = filter checked l.
Proof.
  induction l as [|o l IH]; [reflexivity|].
  unfold commands, is_command in *. simpl.
  destruct o; simpl; try (intros; discriminate); intros H;
    rewrite ?(IH H); auto.
Qed.

(** The commands in the log: the checked ones, the locations pushed after
    the fourth of them. *)
Lemma commands_shape l st :
  path l st ->
  commands l =
    firstn 4 (issued st) ++ filter is_set_target l ++ skipn 4 (issued st) /\
  (registered st = false -> exhausted st = false -> filter is_set_target l = []).
Proof.
  revert l st.
  apply (path_ind_step
           (fun l st =>
              commands l =
                firstn 4 (issued st) ++ filter is_set_target l ++
                skipn 4 (issued st) /\
              (registered st = false -> exhausted st = false ->
               filter is_set_target l = []))); [now split|].
  intros l st o st' Hp [IH1 IH2] He.
  rewrite commands_app, filter_app, IH1.
  destruct He; simpl in *; rewrite ?app_nil_r;
    try (rewrite (IH2 eq_refl eq_refl); split; [reflexivity | auto]; fail);
    try (split; [reflexivity | intros; discriminate]; fail);
    try (split; [reflexivity | exact IH2]; fail);
    try (split; [simpl; rewrite <- ?app_assoc; reflexivity | discriminate];
         fail).
Qed.

Lemma issued_in l st x :
  path l st -> checked x = true -> (In x l <-> In x (issued st)).
Proof.
  intros Hp Hc. rewrite <- (issued_checked Hp), filter_In. tauto.
Qed.

(** The log up to a relay entry: FollowMe has started, the location
    callback is registered, the event loop has not run out of work and
    FollowMe has not been stopped. *)
Lemma relay_window p o st1 st2 :
  path p st1 -> edge st1 o st2 -> is_relay o = true ->
  In (O_start SUCCESS) p /\
  (exists prov, In (O_request_location_updates prov) p) /\
  ~ In (O_io_run_one false) p /\
  (forall r, ~ In (O_stop r) p).
Proof.
  intros Hp He Ho.
  destruct (events_passed Hp) as (H1 & H2 & _).
  assert (Hst : st1 = Following \/ (exists lat lon, st1 = Delivering lat lon) \/
                st1 = Delivered)
    by (inversion He; subst; try discriminate; eauto).
  assert (Hi : issued st1 = before (O_stop SUCCESS))
    by (destruct Hst as [->|[(lat & lon & ->)| ->]]; reflexivity).
  split; [|split; [|split]].
  - apply (issued_in (O_start SUCCESS) Hp eq_refl). rewrite Hi. simpl. tauto.
  - apply H1. destruct Hst as [->|[(lat & lon & ->)| ->]]; reflexivity.
  - apply H2. destruct Hst as [->|[(lat & lon & ->)| ->]]; reflexivity.
  - intros r Hr. apply (issued_in (O_stop r) Hp eq_refl) in Hr. rewrite Hi in Hr.
    simpl in Hr. intuition discriminate.
Qed.

(** C3: every [set_target_location] in the log comes after the successful
    start of FollowMe and the registration of the location callback, and
    before the event loop has run out of work and FollowMe is stopped. *)
Theorem set_target_only_while_following n p loc r q :
  log (final (run n)) = p ++ O_set_target_location loc r :: q ->
  In (O_start SUCCESS) p /\
  (exists prov, In (O_request_location_updates prov) p) /\
  ~ In (O_io_run_one false) p /\
  (forall r', ~ In (O_stop r') p).
Proof.
  intros Hl. destruct (run_cases n) as ((st & [Hp _] & _) & _).
  rewrite Hl in Hp. apply path_split in Hp.
  destruct Hp as (st1 & st2 & Hp1 & He & _).
  now apply (relay_window Hp1 He).
Qed.

(** C5: the locations pushed to the vehicle are the samples received, in
    the order received, and the samples received are the first samples of
    the stream; the push for a sample has returned, and the turn of the
    event loop with it, before anything else is logged. *)
Theorem targets_in_order n :
  targets (log (final (run n))) =
    List.map target_of_sample (received (log (final (run n)))) /\
  received (log (final (run n))) = feed (samples (final (run n))) /\
  forall p lat lon q,
    log (final (run n)) = p ++ LocationCallback lat lon :: q ->
    exists r q',
      q = O_set_target_location (target_of lat lon) r :: O_io_run_one true :: q'.
Proof.
  destruct (run_cases n) as ((st & [Hp _] & Hr) & (_ & Hf & _) & _).
  split; [|split; [exact Hf|]].
  - pose proof (targets_received Hp) as H.
    destruct st; try discriminate; exact H.
  - intros p lat lon q Hl. rewrite Hl in Hp.
    apply path_split in Hp. destruct Hp as (st1 & st2 & _ & He & Hq).
    inversion He; subst; try discriminate.
    inversion Hq as [|? x ? q1 ? Hx Hq1]; subst; [discriminate|].
    inversion Hx; subst; try discriminate.
    inversion Hq1 as [|? y ? q2 ? Hy Hq2]; subst; [discriminate|].
    inversion Hy; subst; try discriminate. eauto.
Qed.

(** C6, as amended: the location provider is made once, while FollowMe is
    active, and is never released: every provider made is still live, and
    it is live after the event loop has run out of work and after FollowMe
    was stopped. *)
Theorem location_provider_never_released n :
  live_providers (final (run n)) =
    length (filter is_new (log (final (run n)))) /\
  live_providers (final (run n)) <= 1 /\
  (forall p prov q,
     log (final (run n)) = p ++ O_new_FakeLocationProvider prov :: q ->
     In (O_start SUCCESS) p /\ filter is_new p = [] /\
     ~ In (O_io_run_one false) p /\ (forall r, ~ In (O_stop r) p)) /\
  (In (O_io_run_one false) (log (final (run n))) ->
   live_providers (final (run n)) = 1) /\
  (forall r, In (O_stop r) (log (final (run n))) ->
   live_providers (final (run n)) = 1).
Proof.
  destruct (run_cases n) as ((st & [Hp _] & _) & (_ & _ & _ & Hlive) & _).
  destruct (events_passed Hp) as (_ & H2 & _ & H4).
  rewrite Hlive, H4.
  split; [reflexivity|]. split; [|split; [|split]].
  - destruct st; simpl; try lia; destruct o; simpl; lia.
  - intros p prov q Hl. rewrite Hl in Hp. apply path_split in Hp.
    destruct Hp as (st1 & st2 & Hp1 & He & _).
    inversion He; subst; try discriminate.
    destruct (events_passed Hp1) as (_ & H2' & _ & H4').
    split; [|split; [|split]].
    + apply (issued_in (O_start SUCCESS) Hp1 eq_refl). simpl. tauto.
    + now apply length_zero_iff_nil.
    + now apply H2'.
    + intros r Hr. apply (issued_in (O_stop r) Hp1 eq_refl) in Hr.
      simpl in Hr. intuition discriminate.
  - intros Hin. destruct (exhausted st) eqn:Hx; [|now elim (H2 eq_refl)].
    destruct st; try discriminate; try reflexivity;
      destruct o; try discriminate; reflexivity.
  - intros r Hin. apply (issued_in (O_stop r) Hp eq_refl) in Hin.
    destruct st; simpl in Hin; try reflexivity;
      try (intuition discriminate);
      destruct o; simpl in Hin; try reflexivity; intuition discriminate.
Qed.

(** Wherever dronecore calls the flight-mode callback: the event loop
    runs, and the location callback is called, only between the
    successful start of FollowMe and its stop; the flight-mode callback
    is registered on the telemetry after the vehicle is armed and before
    takeoff, and it is called only after that. *)
Theorem callbacks_in_their_windows n p o q :
  log (final (run n)) = p ++ o :: q ->
  (is_relay o = true ->
   In (O_start SUCCESS) p /\
   (exists prov, In (O_request_location_updates prov) p) /\
   ~ In (O_io_run_one false) p /\ (forall r, ~ In (O_stop r) p)) /\
  (is_status o = true -> In (O_arm SUCCESS) p /\ In O_flight_mode_async p) /\
  (o = O_flight_mode_async ->
   In (O_arm SUCCESS) p /\ (forall r, ~ In (O_takeoff r) p) /\
   (forall r, ~ In (O_start r) p)).
Proof.
  intros Hl. destruct (run_cases n) as ((st & [Hp _] & _) & _).
  rewrite Hl in Hp. apply path_split in Hp.
  destruct Hp as (st1 & st2 & Hp1 & He & _).
  split; [exact (relay_window Hp1 He)|]. split.
  - intros Ho.
    assert (Hs : serving st1 = true)
      by (inversion He; subst; try discriminate; assumption).
    destruct (events_passed Hp1) as (_ & _ & H3 & _). split.
    + apply (issued_in (O_arm SUCCESS) Hp1 eq_refl).
      destruct st1; try discriminate; simpl; tauto.
    + apply H3. destruct st1; try discriminate; reflexivity.
  - intros ->. inversion He; subst; try discriminate.
    split; [|split].
    + apply (issued_in (O_arm SUCCESS) Hp1 eq_refl). simpl. tauto.
    + intros r Hr. apply (issued_in (O_takeoff r) Hp1 eq_refl) in Hr.
      simpl in Hr. intuition discriminate.
    + intros r Hr. apply (issued_in (O_start r) Hp1 eq_refl) in Hr.
      simpl in Hr. intuition discriminate.
Qed.

(** ** Runs in which the stream stops *)

Lemma samples_exact s k :
  sound s -> location_updates w (samples s) = None ->
  (forall j, j < k -> location_updates w j <> None) ->
  location_updates w k = None -> samples s = k.
Proof.
  intros (_ & _ & Hk & _) Hs Hlt Hnone.
  destruct (Nat.lt_total (samples s) k) as [H|[H|H]]; [|exact H|].
  - now elim (Hlt _ H).
  - now elim (Hk _ H).
Qed.

(** With no sample, no location is ever pushed. *)
Lemma no_sample_no_target n :
  location_updates w 0 = None ->
  filter is_set_target (log (final (run n))) = [].
Proof.
  intros H0. destruct (run_cases n) as ((st & [Hp _] & Hr) & Hs & _).
  apply no_targets.
  pose proof (targets_received Hp) as Ht.
  assert (Ht' : targets (log (final (run n))) =
                List.map target_of_sample (received (log (final (run n)))))
    by (destruct st; try discriminate; exact Ht).
  rewrite Ht'. destruct Hs as (_ & -> & Hk & _).
  destruct (samples (final (run n))) as [|k]; [reflexivity|].
  elim (Hk 0); [lia | exact H0].
Qed.

(** When the device becomes ready and the stream stops, the run ends: it
    returns when no command fails, and exits at the first that fails. *)
Lemma run_ends a b k :
  is_connected_at w a = true -> health_all_ok_at w b = true ->
  location_updates w k = None ->
  exists n,
    sound (final (run n)) /\
    match first_failure with
    | None => outcome (run n) = Returned 0%Z /\ at_stage Finished (final (run n))
    | Some o =>
        outcome (run n) = Exited EXIT_FAILURE /\
        at_stage (Aborted o) (final (run n))
    end.
Proof.
  intros Ha Hb Hk.
  assert (Hends : ends) by (right; eauto 10).
  destruct (main_ends Hends) as [n Hn]. exists n.
  destruct (run_cases n) as (_ & Hs & Ho). split; [exact Hs|].
  destruct (outcome (run n)) as [z|z|]; [| |now elim Hn].
  - destruct Ho as (-> & Hst).
    now rewrite (first_failure_finished (proj1 Hst) (proj1 Hs)).
  - destruct Ho as (-> & o & _ & Hst).
    now rewrite (first_failure_aborted (proj1 Hst) (proj1 Hs)).
Qed.


(** With two samples in the stream, a run that has reached a point past
    the event loop has pushed two locations: the samples, with altitude
    and velocities zero. *)
Lemma two_targets n st lat1 lon1 lat2 lon2 :
  location_updates w 0 = Some (lat1, lon1) ->
  location_updates w 1 = Some (lat2, lon2) ->
  location_updates w 2 = None ->
  sound (final (run n)) -> at_stage st (final (run n)) ->
  exhausted st = true ->
  exists r1 r2,
    filter is_set_target (log (final (run n))) =
      [O_set_target_location (target_of lat1 lon1) r1;
       O_set_target_location (target_of lat2 lon2) r2].
Proof.
  intros H0 H1 H2 Hs (Hp & _ & Hx) He.
  assert (Hk : samples (final (run n)) = 2).
  { apply samples_exact; auto.
    intros j Hj. destruct j as [|[|j]]; [congruence | congruence | lia]. }
  pose proof (targets_received Hp) as Ht.
  assert (Ht' : targets (log (final (run n))) =
                List.map target_of_sample (received (log (final (run n)))))
    by (destruct st; try discriminate; exact Ht).
  destruct Hs as (_ & Hf & _). rewrite Hf, Hk in Ht'.
  simpl in Ht'. rewrite H0, H1 in Ht'. simpl in Ht'.
  pose proof (targets_of_set_targets (log (final (run n)))) as H.
  rewrite Ht' in H.
  inversion H as [|x1 ? l1 ? (r1 & ->) H' E1 E2]; subst.
  inversion H' as [|x2 ? l2 ? (r2 & ->) H'' E3 E4]; subst.
  inversion H''; subst.
  exists r1, r2. reflexivity.
Qed.

(** C4: in the nominal scenario - the connection is made and the heartbeat
    seen, the health becomes ok, arm, takeoff and start succeed, the
    stream gives (47.0, 8.5), then (47.001, 8.501), then stops - the
    commands of a run are the connection, arm, takeoff, start, exactly two
    pushes of these coordinates with altitude and velocities zero, then
    stop, then land once stop has succeeded; stop and land succeeding as
    well, the process returns 0. *)
Theorem nominal_run_two_samples a b :
  add_udp_connection_result w = SUCCESS ->
  is_connected_at w a = true -> health_all_ok_at w b = true ->
  arm_result w = SUCCESS -> takeoff_result w = SUCCESS ->
  start_result w = SUCCESS ->
  location_updates w 0 = Some (47.0, 8.5)%float ->
  location_updates w 1 = Some (47.001, 8.501)%float ->
  location_updates w 2 = None ->
  exists n r1 r2,
    commands (log (final (run n))) =
      [O_add_udp_connection SUCCESS; O_arm SUCCESS; O_takeoff SUCCESS;
       O_start SUCCESS;
       O_set_target_location
         {| latitude_deg := 47.0; longitude_deg := 8.5; altitude_m := 0;
            velocity_north := 0; velocity_east := 0; velocity_down := 0 |} r1;
       O_set_target_location
         {| latitude_deg := 47.001; longitude_deg := 8.501; altitude_m := 0;
            velocity_north := 0; velocity_east := 0; velocity_down := 0 |} r2;
       O_stop (stop_result w)] ++
      (if result_eq_dec (stop_result w) SUCCESS
       then [O_land (land_result w)] else []) /\
    (stop_result w = SUCCESS -> land_result w = SUCCESS ->
     outcome (run n) = Returned 0%Z).
Proof.
  intros Hconn Ha Hb Harm Htakeoff Hstart H0 H1 H2.
  destruct (run_ends _ _ _ Ha Hb H2) as (n & Hs & Hn). exists n.
  unfold first_failure in Hn.
  destruct (result_eq_dec (add_udp_connection_result w) SUCCESS);
    [|contradiction].
  destruct (result_eq_dec (arm_result w) SUCCESS); [|contradiction].
  destruct (result_eq_dec (takeoff_result w) SUCCESS); [|contradiction].
  destruct (result_eq_dec (start_result w) SUCCESS); [|contradiction].
  destruct (result_eq_dec (stop_result w) SUCCESS) as [Hstop|Hstop].
  - destruct (result_eq_dec (land_result w) SUCCESS) as [Hland|Hland];
      destruct Hn as (Ho & Hst);
      destruct (two_targets n H0 H1 H2 Hs Hst eq_refl) as (r1 & r2 & Hset);
      exists r1, r2;
      destruct (commands_shape (proj1 Hst)) as [-> _]; rewrite Hset, Hstop;
      simpl; rewrite ?Hland; split; auto; contradiction.
  - destruct Hn as (Ho & Hst).
    destruct (two_targets n H0 H1 H2 Hs Hst eq_refl) as (r1 & r2 & Hset).
    exists r1, r2.
    destruct (commands_shape (proj1 Hst)) as [-> _]. rewrite Hset.
    split; [reflexivity | contradiction].
Qed.

(** C10: when the stream stops before its first sample, no location is
    ever pushed; when FollowMe has started, stop is still issued, and
    land after it when stop succeeds; the process returns 0 when both
    succeed. *)
Theorem no_samples_stop_and_land :
  location_updates w 0 = None ->
  (forall n, filter is_set_target (log (final (run n))) = []) /\
  (forall a b,
     add_udp_connection_result w = SUCCESS ->
     is_connected_at w a = true -> health_all_ok_at w b = true ->
     arm_result w = SUCCESS -> takeoff_result w = SUCCESS ->
     start_result w = SUCCESS ->
     exists n,
       commands (log (final (run n))) =
         [O_add_udp_connection SUCCESS; O_arm SUCCESS; O_takeoff SUCCESS;
          O_start SUCCESS; O_stop (stop_result w)] ++
         (if result_eq_dec (stop_result w) SUCCESS
          then [O_land (land_result w)] else []) /\
       (stop_result w = SUCCESS -> land_result w = SUCCESS ->
        outcome (run n) = Returned 0%Z)).
Proof.
  intros H0. split; [intros n; now apply no_sample_no_target|].
  intros a b Hconn Ha Hb Harm Htakeoff Hstart.
  destruct (run_ends _ _ _ Ha Hb H0) as (n & Hs & Hn). exists n.
  pose proof (no_sample_no_target n H0) as Hnone.
  unfold first_failure in Hn.
  destruct (result_eq_dec (add_udp_connection_result w) SUCCESS);
    [|contradiction].
  destruct (result_eq_dec (arm_result w) SUCCESS); [|contradiction].
  destruct (result_eq_dec (takeoff_result w) SUCCESS); [|contradiction].
  destruct (result_eq_dec (start_result w) SUCCESS); [|contradiction].
  destruct (result_eq_dec (stop_result w) SUCCESS) as [Hstop|Hstop].
  - destruct (result_eq_dec (land_result w) SUCCESS) as [Hland|Hland];
      destruct Hn as (Ho & Hp & _);
      destruct (commands_shape Hp) as [-> _]; rewrite Hnone, Hstop;
      simpl; rewrite ?Hland; split; auto; contradiction.
  - destruct Hn as (Ho & Hp & _).
    destruct (commands_shape Hp) as [-> _]. rewrite Hnone.
    split; [reflexivity | contradiction].
Qed.

(** ** The readiness polls *)

Lemma concat_repeat_S {A : Type} (r : list A) k :
  concat (repeat r (S k)) = concat (repeat r k) ++ r.
Proof.
  induction k as [|k IH]; [simpl; now rewrite app_nil_r|].
  change (concat (repeat r (S (S k)))) with (r ++ concat (repeat r (S k))).
  rewrite IH, app_assoc. f_equal. exact IH.
Qed.

Ltac shape_tac :=
  unfold awaiting_health, awaiting_heartbeat;
  rewrite ?concat_repeat_S; rewrite <- ?app_assoc; simpl;
  rewrite <- ?app_assoc; simpl; reflexivity.

Lemma polling_shape l st :
  path l st ->
  match st with
  | Start => l = []
  | Polling_connected => exists k, l = awaiting_heartbeat k
  | Waiting_connected =>
      exists k, l = awaiting_heartbeat k ++ [O_is_connected false]
  | Sleeping_connected =>
      exists k, l = awaiting_heartbeat k ++ firstn 2 connect_round
  | Polling_health => exists a k, l = awaiting_health a k
  | Waiting_health =>
      exists a k, l = awaiting_health a k ++ [O_health_all_ok false]
  | Sleeping_health =>
      exists a k, l = awaiting_health a k ++ firstn 2 health_round
  | _ => True
  end.
Proof.
  revert l st.
  apply (path_ind_step
           (fun l st =>
              match st with
              | Start => l = []
              | Polling_connected => exists k, l = awaiting_heartbeat k
              | Waiting_connected =>
                  exists k, l = awaiting_heartbeat k ++ [O_is_connected false]
              | Sleeping_connected =>
                  exists k, l = awaiting_heartbeat k ++ firstn 2 connect_round
              | Polling_health => exists a k, l = awaiting_health a k
              | Waiting_health =>
                  exists a k, l = awaiting_health a k ++ [O_health_all_ok false]
              | Sleeping_health =>
                  exists a k, l = awaiting_health a k ++ firstn 2 health_round
              | _ => True
              end)); [reflexivity|].
  intros l st o st' Hp IH He.
  destruct He; try exact Logic.I;
    try (destruct st; try discriminate; exact Logic.I).
  - subst l. now exists 0.
  - destruct IH as (k & ->). now exists k.
  - destruct IH as (k & ->). exists k. shape_tac.
  - destruct IH as (k & ->). exists (S k). shape_tac.
  - destruct IH as (k & ->). now exists k, 0.
  - destruct IH as (a & k & ->). now exists a, k.
  - destruct IH as (a & k & ->). exists a, k. shape_tac.
  - destruct IH as (a & k & ->). exists a, (S k). shape_tac.
Qed.

Lemma awaiting_no_cerr a k : Forall (fun o => is_cerr o = false) (awaiting_health a k).
Proof.
  assert (H : forall r k, Forall (fun o => is_cerr o = false) r ->
            Forall (fun o => is_cerr o = false) (concat (repeat r k))).
  { intros r k' Hr. induction k' as [|k' IH]; simpl; [constructor|].
    now apply Forall_app. }
  unfold awaiting_health, awaiting_heartbeat.
  constructor; [reflexivity|]. apply Forall_app. split.
  - apply H. now repeat constructor.
  - constructor; [reflexivity|]. apply H. now repeat constructor.
Qed.

Lemma prefix_awaiting_health a k l :
  prefix l (awaiting_heartbeat a) -> prefix l (awaiting_health a k).
Proof.
  intros (rest & H). unfold awaiting_health. rewrite H.
  eexists. now rewrite <- app_assoc.
Qed.

(** The log while [main] has not passed the health check. *)
Lemma waiting_log l st :
  path l st -> ready st = false ->
  (exists o, st = Failed o \/ st = Aborted o) \/
  (heard st = false /\ exists k, prefix l (awaiting_heartbeat k)) \/
  (heard st = true /\ exists a k, prefix l (awaiting_health a k)).
Proof.
  intros Hp Hr. pose proof (polling_shape Hp) as H.
  destruct st; try discriminate; eauto.
  - right. left. split; [reflexivity|]. exists 0. subst l. now eexists.
  - right. left. split; [reflexivity|]. destruct H as (k & ->).
    exists k. exists []. now rewrite app_nil_r.
  - right. left. split; [reflexivity|]. destruct H as (k & ->).
    exists (S k). exists (skipn 1 connect_round).
    shape_tac.
  - right. left. split; [reflexivity|]. destruct H as (k & ->).
    exists (S k). exists (skipn 2 connect_round).
    shape_tac.
  - right. right. split; [reflexivity|]. destruct H as (a & k & ->).
    exists a, k. exists []. now rewrite app_nil_r.
  - right. right. split; [reflexivity|]. destruct H as (a & k & ->).
    exists a, (S k). exists (skipn 1 health_round).
    shape_tac.
  - right. right. split; [reflexivity|]. destruct H as (a & k & ->).
    exists a, (S k). exists (skipn 2 health_round).
    shape_tac.
Qed.

Lemma never_ready_running n :
  add_udp_connection_result w = SUCCESS ->
  (forall st, path (log (final (run n))) st -> ready st = false) ->
  outcome (run n) = Running /\
  exists st, path (log (final (run n))) st /\ ready st = false /\
             forall o, st <> Failed o /\ st <> Aborted o.
Proof.
  intros Hconn Hr.
  destruct (run_cases n) as ((st & [Hp _] & _) & (Hw & _) & Ho).
  assert (Hnf : forall st', path (log (final (run n))) st' ->
                  forall o, st' <> Failed o /\ st' <> Aborted o).
  { intros st' Hp' o. pose proof (Hr _ Hp') as Hr'. split; intros ->.
    - pose proof (first_failure_failed Hp' Hw) as Hff.
      destruct o; try discriminate. revert Hff. world_cases.
    - pose proof (first_failure_aborted Hp' Hw) as Hff.
      destruct o; try discriminate. revert Hff. world_cases. }
  split.
  - destruct (outcome (run n)) as [z|z|]; [| |reflexivity].
    + destruct Ho as (_ & Hp' & _). pose proof (Hr _ Hp'). discriminate.
    + destruct Ho as (_ & o & _ & Hp' & _). now elim (proj2 (Hnf _ Hp' o)).
  - exists st. split; [exact Hp|]. split; [now apply Hr | now apply Hnf].
Qed.

Lemma prefix_no_cerr l a k :
  prefix l (awaiting_health a k) -> Forall (fun o => is_cerr o = false) l.
Proof.
  intros (rest & H). pose proof (awaiting_no_cerr a k) as Hn.
  rewrite H in Hn. now apply Forall_app in Hn.
Qed.

(** ** The polls go on *)

Lemma heartbeat_turn (K : unit -> itree E Z) k n :
  is_connected_at w k = false ->
  exec (4 + n) (ITree.bind heartbeat_poll K) (polling_heartbeat k) =
  exec n (ITree.bind heartbeat_poll K) (polling_heartbeat (S k)).
Proof.
  intros H. unfold heartbeat_poll, while_. cbn. rewrite H. cbn.
  f_equal. unfold record, append_log, count_polls, polling_heartbeat. simpl.
  f_equal. shape_tac.
Qed.

Lemma heartbeat_turns (K : unit -> itree E Z) k : forall n,
  (forall j, j < k -> is_connected_at w j = false) ->
  exec (4 * k + n) (ITree.bind heartbeat_poll K) (polling_heartbeat 0) =
  exec n (ITree.bind heartbeat_poll K) (polling_heartbeat k).
Proof.
  induction k as [|k IH]; intros n H; [reflexivity|].
  replace (4 * S k + n) with (4 * k + (4 + n)) by lia.
  rewrite IH by (intros j Hj; apply H; lia).
  apply heartbeat_turn, H. lia.
Qed.

Lemma heartbeat_seen (K : unit -> itree E Z) a n :
  is_connected_at w a = true ->
  exec (S n) (ITree.bind heartbeat_poll K) (polling_heartbeat a) =
  exec n (K tt) (polling_health a 0).
Proof.
  intros H. unfold heartbeat_poll, while_. cbn. rewrite H. cbn.
  match goal with
  | |- exec n ?T ?s = _ => rewrite (@exec_observe _ T (K tt) eq_refl n s)
  end.
  reflexivity.
Qed.

Lemma health_turn (K : unit -> itree E Z) a k n :
  health_all_ok_at w k = false ->
  exec (4 + n) (ITree.bind health_poll K) (polling_health a k) =
  exec n (ITree.bind health_poll K) (polling_health a (S k)).
Proof.
  intros H. unfold health_poll, while_. cbn. rewrite H. cbn.
  f_equal. unfold record, append_log, count_polls, polling_health. simpl.
  f_equal. shape_tac.
Qed.

Lemma health_turns (K : unit -> itree E Z) a k : forall n,
  (forall j, j < k -> health_all_ok_at w j = false) ->
  exec (4 * k + n) (ITree.bind health_poll K) (polling_health a 0) =
  exec n (ITree.bind health_poll K) (polling_health a k).
Proof.
  induction k as [|k IH]; intros n H; [reflexivity|].
  replace (4 * S k + n) with (4 * k + (4 + n)) by lia.
  rewrite IH by (intros j Hj; apply H; lia).
  apply health_turn, H. lia.
Qed.

Lemma run_connect m :
  add_udp_connection_result w = SUCCESS ->
  exists K : unit -> itree E Z,
    run (S m) = exec m (ITree.bind heartbeat_poll
                          (fun _ => ITree.bind health_poll K))
                  (polling_heartbeat 0).
Proof.
  intros Hadd. unfold run, main. eexists.
  cbn. rewrite Hadd.
  match goal with
  | |- exec ?m (ITree.subst ?f (Ret SUCCESS)) ?s = _ =>
      assert (Hobs : observe (ITree.subst f (Ret SUCCESS)) = observe (f SUCCESS))
        by reflexivity;
      rewrite (exec_observe _ _ Hobs m s); clear Hobs
  end.
  cbv beta. unfold connection_error_exit. destruct (result_eq_dec SUCCESS SUCCESS); [|congruence].
  match goal with
  | |- exec ?m (ITree.bind (Ret tt) ?g) ?s = _ =>
      rewrite (@exec_observe _ (ITree.bind (Ret tt) g) (g tt) eq_refl m s)
  end.
  cbv beta. reflexivity.
Qed.

(** While no heartbeat is seen, the first poll goes on turn after turn. *)
Lemma run_heartbeat k :
  add_udp_connection_result w = SUCCESS ->
  (forall j, j < k -> is_connected_at w j = false) ->
  final (run (S (4 * k))) = polling_heartbeat k.
Proof.
  intros Hadd H. destruct (run_connect (4 * k) Hadd) as [K ->].
  rewrite <- (Nat.add_0_r (4 * k)), heartbeat_turns by exact H.
  reflexivity.
Qed.

(** Once the heartbeat is seen, the second poll goes on while the health
    is not ok. *)
Lemma run_health a k :
  add_udp_connection_result w = SUCCESS ->
  (forall j, j < a -> is_connected_at w j = false) ->
  is_connected_at w a = true ->
  (forall j, j < k -> health_all_ok_at w j = false) ->
  final (run (S (4 * a + S (4 * k)))) = polling_health a k.
Proof.
  intros Hadd Ha Hseen H.
  destruct (run_connect (4 * a + S (4 * k)) Hadd) as [K ->].
  rewrite heartbeat_turns by exact Ha.
  rewrite heartbeat_seen by exact Hseen.
  rewrite <- (Nat.add_0_r (4 * k)), health_turns by exact H.
  reflexivity.
Qed.

Lemma first_true (f : nat -> bool) a :
  f a = true -> exists a', f a' = true /\ forall j, j < a' -> f j = false.
Proof.
  induction a as [a IH] using lt_wf_ind. intros Ha.
  destruct (existsb f (seq 0 a)) eqn:He.
  - apply existsb_exists in He. destruct He as (j & Hj & Hf).
    apply in_seq in Hj. apply (IH j); [lia | exact Hf].
  - exists a. split; [exact Ha|]. intros j Hj.
    destruct (f j) eqn:Hf; [|reflexivity].
    rewrite <- He. symmetry. apply existsb_exists. exists j.
    split; [apply in_seq; lia | exact Hf].
Qed.

(** C8: when the connection is made but the device never reports
    connected, or never reports its health ok, a run of any length is
    still running; its log is the connection followed by turns of the
    poll that fails, each a check, a message and a sleep of 1 second,
    and nothing is written to [cerr]; the poll goes on for any number of
    turns. *)
Theorem readiness_polls_block :
  add_udp_connection_result w = SUCCESS ->
  ((forall j, is_connected_at w j = false) ->
   (forall n,
      outcome (run n) = Running /\
      Forall (fun o => is_cerr o = false) (log (final (run n))) /\
      exists k, prefix (log (final (run n))) (awaiting_heartbeat k)) /\
   (forall k, exists n, log (final (run n)) = awaiting_heartbeat k)) /\
  ((forall j, health_all_ok_at w j = false) ->
   (forall n,
      outcome (run n) = Running /\
      Forall (fun o => is_cerr o = false) (log (final (run n))) /\
      exists a k, prefix (log (final (run n))) (awaiting_health a k)) /\
   (forall a, is_connected_at w a = true ->
    forall k, exists n a', log (final (run n)) = awaiting_health a' k)).
Proof.
  intros Hconn. split; intros Hnever;
    (split; [intros n; destruct (run_cases n) as (_ & (Hw & _) & _)|]).
  - assert (Hh : forall st, path (log (final (run n))) st -> heard st = false).
    { intros st Hp. destruct (heard st) eqn:Hh; [|reflexivity].
      destruct (polls_passed Hp) as [H1 _].
      destruct (proj1 (Forall_forall _ _) Hw _ (H1 Hh)) as (j & Hj).
      rewrite Hnever in Hj. discriminate. }
    destruct (never_ready_running n Hconn) as (Ho & st & Hp & Hr & Hnf).
    { intros st Hp. pose proof (Hh _ Hp). destruct st; try discriminate;
        try reflexivity; destruct o; try discriminate; reflexivity. }
    split; [exact Ho|].
    destruct (waiting_log Hp Hr) as [(o & [->| ->])|[(_ & k & Hk)|(Hh' & _)]].
    + now elim (proj1 (Hnf o)).
    + now elim (proj2 (Hnf o)).
    + split; [|now exists k].
      exact (prefix_no_cerr (prefix_awaiting_health 0 Hk)).
    + rewrite (Hh _ Hp) in Hh'. discriminate.
  - intros k. exists (S (4 * k)). now rewrite run_heartbeat.
  - assert (Hh : forall st, path (log (final (run n))) st -> ready st = false).
    { intros st Hp. destruct (ready st) eqn:Hh; [|reflexivity].
      destruct (polls_passed Hp) as [_ H2].
      destruct (proj1 (Forall_forall _ _) Hw _ (H2 Hh)) as (j & Hj).
      rewrite Hnever in Hj. discriminate. }
    destruct (never_ready_running n Hconn Hh) as (Ho & st & Hp & Hr & Hnf).
    split; [exact Ho|].
    destruct (waiting_log Hp Hr)
      as [(o & [->| ->])|[(_ & k & Hk)|(_ & a & k & Hk)]].
    + now elim (proj1 (Hnf o)).
    + now elim (proj2 (Hnf o)).
    + split; [exact (prefix_no_cerr (prefix_awaiting_health 0 Hk))|].
      exists k, 0. now apply prefix_awaiting_health.
    + split; [exact (prefix_no_cerr Hk) | now exists a, k].
  - intros a Ha k. destruct (first_true _ _ Ha) as (a' & Ha' & Hlt).
    exists (S (4 * a' + S (4 * k))), a'. now rewrite run_health.
Qed.

(** ** When [main] ends, and how *)

(** A run that has ended does not change with more steps. *)
Lemma run_stable n m :
  outcome (run n) <> Running -> n <= m ->
  outcome (run m) = outcome (run n) /\ final (run m) = final (run n).
Proof.
  intros Hn Hle. replace m with (n + (m - n)) by lia.
  unfold run. rewrite exec_more by exact Hn. split; reflexivity.
Qed.

Lemma last_entry_snoc l o : last_entry (l ++ [o]) = Some o.
Proof. unfold last_entry. now rewrite rev_app_distr. Qed.

Lemma finished_last l :
  path l Finished -> last_entry l = Some (O_cout [Str "Finished..."]).
Proof.
  intros Hp. destruct l as [|x l] using rev_ind.
  - apply path_nil in Hp. discriminate.
  - rewrite last_entry_snoc. apply path_step_inv in Hp.
    destruct Hp as (st & _ & He). inversion He; subst; try discriminate.
    reflexivity.
Qed.

(** X1: [main] ends exactly when a command fails or the device becomes ready
    and the location stream stops. *)
Theorem main_ends_iff : (exists n, outcome (run n) <> Running) <-> ends.
Proof.
  split; [|apply main_ends].
  intros [n Hn]. destruct (run_cases n) as (_ & Hs & Ho).
  destruct (outcome (run n)) as [z|z|]; [| |now elim Hn].
  - destruct Ho as (_ & Hp & _ & Hx). destruct Hs as (Hw & _).
    destruct (polls_passed Hp) as [H1 H2]. right. split; [|split].
    + exact (proj1 (Forall_forall _ _) Hw _ (H1 eq_refl)).
    + exact (proj1 (Forall_forall _ _) Hw _ (H2 eq_refl)).
    + right. right. right. exists (samples (final (run n))). now apply Hx.
  - destruct Ho as (_ & o & _ & Hst).
    apply (ends_of_failure Hst Hs (or_intror eq_refl)).
    apply (first_failure_aborted (proj1 Hst) (proj1 Hs)).
Qed.

(** X2: when the device becomes ready and the location stream stops, the
    run ends and stays as it ended: with no failing command it has
    returned 0 after printing "Finished..."; otherwise the process has
    exited with [EXIT_FAILURE], the log ending with the first failing
    command, in the order connect, arm, takeoff, start, stop, land, and
    its diagnostic. *)
Theorem exit_status_is_first_failure a b k :
  is_connected_at w a = true -> health_all_ok_at w b = true ->
  location_updates w k = None ->
  exists n, forall m, n <= m ->
    match first_failure with
    | None =>
        outcome (run m) = Returned 0%Z /\
        last_entry (log (final (run m))) = Some (O_cout [Str "Finished..."])
    | Some o =>
        outcome (run m) = Exited EXIT_FAILURE /\
        exists p, log (final (run m)) = p ++ [o; O_cerr (diagnostic o)]
    end.
Proof.
  intros Ha Hb Hk. destruct (run_ends _ _ _ Ha Hb Hk) as (n & _ & Hn).
  exists n. intros m Hle.
  assert (Hst : outcome (run m) = outcome (run n) /\
                final (run m) = final (run n)).
  { apply run_stable; [|exact Hle].
    destruct first_failure; destruct Hn as [-> _]; discriminate. }
  destruct Hst as [-> ->].
  destruct first_failure as [o|]; destruct Hn as (Ho & Hp & _);
    (split; [exact Ho|]).
  - destruct (aborted_log Hp) as (p & Hl & _). now exists p.
  - now apply finished_last.
Qed.

(** ** What is written to the console *)

Lemma steps_aborted o l st : steps (Aborted o) l st -> l = [].
Proof.
  intros H. inversion H as [|? x ? ? ? He]; subst; [reflexivity|].
  inversion He; subst; discriminate.
Qed.

(** Before it has aborted, [main] has written nothing to [cerr]. *)
Lemma no_cerr_before_abort l st :
  path l st -> (forall o, st <> Aborted o) ->
  Forall (fun o => is_cerr o = false) l.
Proof.
  revert l st.
  apply (path_ind_step
           (fun l st => (forall o, st <> Aborted o) ->
                        Forall (fun o => is_cerr o = false) l)).
  - constructor.
  - intros l st o st' Hp IH He Hst. apply Forall_app. split.
    + apply IH. intros x ->. inversion He; subst; discriminate.
    + constructor; [|constructor].
      destruct He; try reflexivity. now elim (Hst o).
Qed.

(** X3: a line is written to [cerr] only as the diagnostic of a checked
    command that has just failed; it is the only line ever written to
    [cerr] and the last entry of the log. *)
Theorem cerr_is_the_diagnostic_of_a_failure n p line q :
  log (final (run n)) = p ++ O_cerr line :: q ->
  q = [] /\
  Forall (fun o => is_cerr o = false) p /\
  exists p' o,
    p = p' ++ [o] /\ checked o = true /\ failed o /\ line = diagnostic o.
Proof.
  intros Hl. destruct (run_cases n) as ((st & [Hp _] & _) & _).
  rewrite Hl in Hp. apply path_split in Hp.
  destruct Hp as (st1 & st2 & Hp1 & He & Hq).
  inversion He; subst; try discriminate.
  split; [exact (steps_aborted Hq)|]. split.
  - apply (no_cerr_before_abort Hp1). discriminate.
  - destruct (failed_log Hp1) as (p' & -> & Hc & Hf).
    exists p', o. auto.
Qed.

(** The last entry of a log that has reached a point entered by one
    entry only. *)
Lemma entered_by l st o0 :
  path l st -> st <> Start ->
  (forall st' o', edge st' o' st -> o' = o0) ->
  exists p', l = p' ++ [o0].
Proof.
  intros Hp Hst Hin. destruct l as [|x l _] using rev_ind.
  - apply path_nil in Hp. contradiction.
  - apply path_step_inv in Hp. destruct Hp as (st' & _ & He).
    exists l. now rewrite (Hin _ _ He).
Qed.

Ltac entered :=
  eapply entered_by;
  [ eassumption | discriminate
  | let H := fresh in
    intros ? ? H; inversion H; subst; try discriminate; reflexivity ].

(** X4: the progress messages follow what they announce: "Device is ready"
    comes after a health check that passed, "Armed" after arm has
    succeeded, "In Air..." after takeoff has succeeded, and "Finished..."
    after stop and land have succeeded and the last sleep of 5 seconds;
    the two waiting messages come right after a poll that failed. *)
Theorem progress_messages_follow_success n p line q :
  log (final (run n)) = p ++ O_cout line :: q ->
  (line = [Str "Wait for device to connect via heartbeat"] ->
   exists p', p = p' ++ [O_is_connected false]) /\
  (line = [Str "Waiting for device to be ready"] ->
   exists p', p = p' ++ [O_health_all_ok false]) /\
  (line = [Str "Device is ready"] -> In (O_health_all_ok true) p) /\
  (line = [Str "Armed"] -> In (O_arm SUCCESS) p) /\
  (line = [Str "In Air..."] -> In (O_takeoff SUCCESS) p) /\
  (line = [Str "Finished..."] ->
   In (O_stop SUCCESS) p /\ In (O_land SUCCESS) p /\
   exists p', p = p' ++ [O_sleep_for 5]).
Proof.
  intros Hl. destruct (run_cases n) as ((st & [Hp _] & _) & _).
  rewrite Hl in Hp. apply path_split in Hp.
  destruct Hp as (st1 & st2 & Hp1 & He & _).
  split; [|split; [|split; [|split; [|split]]]];
    intros ->; inversion He; subst; try discriminate.
  - entered.
  - entered.
  - now apply (polls_passed Hp1).
  - apply (issued_in (O_arm SUCCESS) Hp1 eq_refl). simpl. tauto.
  - apply (issued_in (O_takeoff SUCCESS) Hp1 eq_refl). simpl. tauto.
  - split; [|split].
    + apply (issued_in (O_stop SUCCESS) Hp1 eq_refl). simpl. tauto.
    + apply (issued_in (O_land SUCCESS) Hp1 eq_refl). simpl. tauto.
    + entered.
Qed.

(** ** The polls, once the device is ready *)

(** Past the readiness polls [main] polls no more. *)
Lemma steps_ready st l st' :
  steps st l st' -> ready st = true ->
  Forall (fun o => is_poll o = false) l.
Proof.
  induction 1 as [|st o st' l st'' He _ IH]; intros Hr; [constructor|].
  assert (H : is_poll o = false /\ ready st' = true).
  { destruct He; try discriminate; split; try reflexivity; try assumption;
      destruct o; reflexivity. }
  constructor; [apply H | apply IH, H].
Qed.

(** X5: each readiness poll is repeated until it first succeeds and never
    again: up to the health check that passed, the log is the connection,
    the turns of the first poll that failed, each with its message and a
    sleep of 1 second, the heartbeat seen, and the turns of the second
    poll that failed; no poll follows. *)
Theorem ready_log_shape n p q :
  log (final (run n)) = p ++ O_health_all_ok true :: q ->
  (exists a k, p = awaiting_health a k) /\
  Forall (fun o => is_poll o = false) q.
Proof.
  intros Hl. destruct (run_cases n) as ((st & [Hp _] & _) & _).
  rewrite Hl in Hp. apply path_split in Hp.
  destruct Hp as (st1 & st2 & Hp1 & He & Hq).
  inversion He; subst; try discriminate. split.
  - exact (polling_shape Hp1).
  - now apply (steps_ready Hq).
Qed.

(** ** While the location stream goes on *)

(** X6: as long as the location provider has samples the event loop does
    not come back: in a world whose stream never stops, FollowMe is never
    stopped, the vehicle is never landed and [main] never returns. *)
Theorem no_stop_while_stream_goes_on n :
  (forall k, location_updates w k <> None) ->
  ~ In (O_io_run_one false) (log (final (run n))) /\
  (forall r, ~ In (O_stop r) (log (final (run n)))) /\
  (forall r, ~ In (O_land r) (log (final (run n)))) /\
  (forall z, outcome (run n) <> Returned z).
Proof.
  intros Hgo. destruct (run_cases n) as ((st & [Hp (_ & Hx)] & _) & _ & Ho).
  assert (Hst : exhausted st = false).
  { destruct (exhausted st); [|reflexivity]. now elim (Hgo _ (Hx eq_refl)). }
  split; [|split; [|split]].
  - now apply (events_passed Hp).
  - intros r Hr. apply (issued_in (O_stop r) Hp eq_refl) in Hr.
    destruct st; simpl in *; try discriminate;
      try (intuition discriminate);
      destruct o; simpl in *; try discriminate; intuition discriminate.
  - intros r Hr. apply (issued_in (O_land r) Hp eq_refl) in Hr.
    destruct st; simpl in *; try discriminate;
      try (intuition discriminate);
      destruct o; simpl in *; try discriminate; intuition discriminate.
  - intros z Hz. rewrite Hz in Ho. destruct Ho as (_ & _ & _ & Hx').
    now elim (Hgo _ (Hx' eq_refl)).
Qed.

(** ** The time slept *)

Lemma sleeps_app l l' : sleeps (l ++ l') = sleeps l ++ sleeps l'.
Proof. apply flat_map_app. Qed.

Lemma repeat_snoc {A : Type} (x : A) c : repeat x c ++ [x] = repeat x (S c).
Proof. induction c as [|c IH]; [reflexivity|]. simpl. now rewrite IH. Qed.

(** At each point of [main]: a sleep of 1 second for each failed poll but
    the one just made, then the sleeps of 5 seconds. *)
Lemma sleeps_shape l st :
  path l st ->
  exists c,
    sleeps l = repeat 1 c ++ repeat 5 (settled st) /\
    length (filter is_failed_poll l) = c + pending st.
Proof.
  revert l st.
  apply (path_ind_step
           (fun l st =>
              exists c,
                sleeps l = repeat 1 c ++ repeat 5 (settled st) /\
                length (filter is_failed_poll l) = c + pending st)).
  - exists 0. split; reflexivity.
  - intros l st o st' Hp (c & IH1 & IH2) He.
    rewrite sleeps_app, filter_app, length_app, IH1, IH2.
    destruct He; simpl in *;
      try (exists c; rewrite ?app_nil_r; split; [reflexivity | lia]);
      try (exists (S c); rewrite ?app_nil_r, ?repeat_snoc;
           split; [reflexivity | lia]);
      try (exists c; rewrite <- ?app_assoc; simpl;
           split; [reflexivity | lia]).
Qed.

Lemma list_sum_ones c : list_sum (repeat 1 c) = c.
Proof. induction c as [|c IH]; [reflexivity|]. simpl. now rewrite IH. Qed.

(** X7: in a run that has returned, [main] has slept 1 second after each
    poll that found the device not ready, then 5 seconds after takeoff and
    5 seconds after landing: the time slept is the number of failed polls
    plus 10 seconds. *)
Theorem sleeps_of_complete_run n z :
  outcome (run n) = Returned z ->
  sleeps (log (final (run n))) =
    repeat 1 (length (filter is_failed_poll (log (final (run n))))) ++ [5; 5] /\
  list_sum (sleeps (log (final (run n)))) =
    length (filter is_failed_poll (log (final (run n)))) + 10.
Proof.
  intros H. destruct (run_cases n) as (_ & _ & Ho). rewrite H in Ho.
  destruct Ho as (_ & Hp & _).
  destruct (sleeps_shape Hp) as (c & Hs & Hc). simpl in Hs, Hc.
  rewrite Hs, Hc, Nat.add_0_r. split; [reflexivity|].
  rewrite list_sum_app, list_sum_ones. reflexivity.
Qed.


(** ** The order of the commands *)

(** X8: at any moment of any run the checked commands issued so far are
    the first commands of the mission, connect, arm, takeoff, start, stop,
    land, each once and each having succeeded, but for the last one when
    it has failed: no command is issued before the ones before it have
    succeeded, none is repeated, and none follows a failure. *)
Theorem checked_commands_in_order n :
  (exists j, filter checked (log (final (run n))) = firstn j mission_commands) \/
  (exists j o,
     checked o = true /\ failed o /\ before o = firstn j mission_commands /\
     filter checked (log (final (run n))) = firstn j mission_commands ++ [o]).
Proof.
  destruct (run_cases n) as ((st & [Hp _] & _) & _).
  rewrite (issued_checked Hp).
  assert (Hf : forall o, path (log (final (run n))) (Failed o) ->
                         checked o = true /\ failed o).
  { intros o H. destruct (failed_log H) as (_ & _ & Hc & Hf). now split. }
  assert (Ha : forall o, path (log (final (run n))) (Aborted o) ->
                         checked o = true /\ failed o).
  { intros o H. destruct (aborted_log H) as (p & _ & H').
    destruct (failed_log H') as (_ & _ & Hc & Hf'). now split. }
  destruct st;
    try (left; first [ now exists 0 | now exists 1 | now exists 2
                     | now exists 3 | now exists 4 | now exists 5
                     | now exists 6 ]).
  - right. destruct (Hf _ Hp) as [Hc Hfail].
    destruct o; try discriminate;
      [exists 0 | exists 1 | exists 2 | exists 5 | exists 3 | exists 4];
      eexists; repeat split; eauto.
  - right. destruct (Ha _ Hp) as [Hc Hfail].
    destruct o; try discriminate;
      [exists 0 | exists 1 | exists 2 | exists 5 | exists 3 | exists 4];
      eexists; repeat split; eauto.
Qed.

(** ** Every sample is pushed *)

Lemma feed_length k :
  (forall j, j < k -> location_updates w j <> None) -> length (feed k) = k.
Proof.
  induction k as [|k IH]; intros H; [reflexivity|].
  simpl. rewrite length_app, IH by (intros j Hj; apply H; lia).
  destruct (location_updates w k) eqn:Hk; [simpl; lia|].
  now elim (H k (Nat.lt_succ_diag_r k)).
Qed.

(** X9: the result of [set_target_location] is not looked at: when the
    device becomes ready, connect, arm, takeoff and start succeed and the
    stream stops after [k] samples, the run ends having pushed each of
    the [k] samples once, in order, with altitude and velocities zero,
    whatever the vehicle link has answered to the pushes. *)
Theorem every_sample_is_pushed a b k :
  is_connected_at w a = true -> health_all_ok_at w b = true ->
  add_udp_connection_result w = SUCCESS -> arm_result w = SUCCESS ->
  takeoff_result w = SUCCESS -> start_result w = SUCCESS ->
  (forall j, j < k -> location_updates w j <> None) ->
  location_updates w k = None ->
  exists n,
    outcome (run n) <> Running /\
    targets (log (final (run n))) = List.map target_of_sample (feed k) /\
    length (filter is_set_target (log (final (run n)))) = k.
Proof.
  intros Ha Hb Hconn Harm Htakeoff Hstart Hlt Hk.
  destruct (run_ends _ _ _ Ha Hb Hk) as (n & Hs & Hn). exists n.
  assert (H : outcome (run n) <> Running /\
              exists st, at_stage st (final (run n)) /\ exhausted st = true).
  { unfold first_failure in Hn.
    destruct (result_eq_dec (add_udp_connection_result w) SUCCESS);
      [|contradiction].
    destruct (result_eq_dec (arm_result w) SUCCESS); [|contradiction].
    destruct (result_eq_dec (takeoff_result w) SUCCESS); [|contradiction].
    destruct (result_eq_dec (start_result w) SUCCESS); [|contradiction].
    destruct (result_eq_dec (stop_result w) SUCCESS);
      [destruct (result_eq_dec (land_result w) SUCCESS)|];
      destruct Hn as [Ho Hst]; rewrite Ho;
      (split; [discriminate | eexists; split; [exact Hst | reflexivity]]). }
  destruct H as (Ho & st & (Hp & _ & Hx) & He). split; [exact Ho|].
  assert (Hsamples : samples (final (run n)) = k)
    by (apply samples_exact; auto).
  pose proof (targets_received Hp) as Ht.
  assert (Ht' : targets (log (final (run n))) =
                List.map target_of_sample (received (log (final (run n)))))
    by (destruct st; try discriminate; exact Ht).
  destruct Hs as (_ & Hf & _). rewrite Hf, Hsamples in Ht'.
  split; [exact Ht'|].
  rewrite (Forall2_length (targets_of_set_targets (log (final (run n))))).
  now rewrite Ht', length_map, feed_length.
Qed.

(** ** What is printed *)

Lemma progress_app l l' : progress (l ++ l') = progress l ++ progress l'.
Proof. apply flat_map_app. Qed.

Lemma heartbeat_misses_app l l' :
  heartbeat_misses (l ++ l') = heartbeat_misses l + heartbeat_misses l'.
Proof. unfold heartbeat_misses. now rewrite filter_app, length_app. Qed.

Lemma health_misses_app l l' :
  health_misses (l ++ l') = health_misses l + health_misses l'.
Proof. unfold health_misses. now rewrite filter_app, length_app. Qed.

(** At each point of [main]: a waiting message for each failed poll but
    the one just made, then the announcements. *)
Lemma progress_shape l st :
  path l st ->
  exists a k,
    progress l =
      repeat "Wait for device to connect via heartbeat" a ++
      repeat "Waiting for device to be ready" k ++
      firstn (announced st) announcements /\
    heartbeat_misses l =
      a + match st with Waiting_connected => 1 | _ => 0 end /\
    health_misses l = k + match st with Waiting_health => 1 | _ => 0 end /\
    (heard st = false -> k = 0).
Proof.
  revert l st.
  apply (path_ind_step
           (fun l st =>
              exists a k,
                progress l =
                  repeat "Wait for device to connect via heartbeat" a ++
                  repeat "Waiting for device to be ready" k ++
                  firstn (announced st) announcements /\
                heartbeat_misses l =
                  a + match st with Waiting_connected => 1 | _ => 0 end /\
                health_misses l =
                  k + match st with Waiting_health => 1 | _ => 0 end /\
                (heard st = false -> k = 0))).
  - exists 0, 0. repeat split.
  - intros l st o st' Hp (a & k & IH1 & IH2 & IH3 & IH4) He.
    rewrite progress_app, heartbeat_misses_app, health_misses_app,
      IH1, IH2, IH3.
    destruct He; simpl in *.
    all: try (exists a, k; rewrite ?app_nil_r;
              repeat split; try reflexivity; try lia; try discriminate;
              auto; fail).
    + rewrite (IH4 eq_refl) in *. exists (S a), 0. simpl.
      rewrite !app_nil_r, repeat_snoc. unfold heartbeat_misses, health_misses.
      simpl. repeat split; lia.
    + exists a, (S k). simpl.
      rewrite !app_nil_r, <- app_assoc, repeat_snoc.
      unfold heartbeat_misses, health_misses. simpl.
      repeat split; try lia; discriminate.
    + exists a, k. rewrite <- !app_assoc.
      unfold heartbeat_misses, health_misses. simpl.
      repeat split; try lia; discriminate.
    + exists a, k. rewrite <- !app_assoc.
      unfold heartbeat_misses, health_misses. simpl.
      repeat split; try lia; discriminate.
    + exists a, k. rewrite <- !app_assoc.
      unfold heartbeat_misses, health_misses. simpl.
      repeat split; try lia; discriminate.
    + exists a, k. rewrite <- !app_assoc.
      unfold heartbeat_misses, health_misses. simpl.
      repeat split; try lia; discriminate.
Qed.

(** X10: in a run that has returned, [main] has printed, besides the
    status lines of the flight-mode callback, one waiting message for each
    poll that found the device not connected, then one for each that found
    it not ready, then "Device is ready", "Armed", "In Air..." and
    "Finished...", in this order. *)
Theorem progress_of_complete_run n z :
  outcome (run n) = Returned z ->
  progress (log (final (run n))) =
    repeat "Wait for device to connect via heartbeat"
      (heartbeat_misses (log (final (run n)))) ++
    repeat "Waiting for device to be ready"
      (health_misses (log (final (run n)))) ++
    ["Device is ready"; "Armed"; "In Air..."; "Finished..."].
Proof.
  intros H. destruct (run_cases n) as (_ & _ & Ho). rewrite H in Ho.
  destruct Ho as (_ & Hp & _).
  destruct (progress_shape Hp) as (a & k & Hs & Ha & Hk & _).
  rewrite Hs, Ha, Hk, !Nat.add_0_r. reflexivity.
Qed.

(** ** The flight-mode callback served on the event loop *)






(** The rules of [safe] hold of [safe_on_loop]. *)

Section SafeOnLoop.

Variable I : Device -> Prop.
Variable X : Z -> Device -> Prop.








End SafeOnLoop.
























(** When the vehicle reports no flight mode, serving the callback on the
    event loop or in every call in which [main] waits is the same. *)
Lemma notify_silent s :
  (forall t, flight_mode_updates w t = []) -> notify s = s.
Proof.
  intros H. unfold notify. rewrite H. now destruct (flight_mode_callback s).
Qed.

Lemma exec_on_loop_silent {R : Type} n : forall (t : itree E R) s,
  (forall t', flight_mode_updates w t' = []) ->
  exec_on_loop n t s = exec n t s.
Proof.
  induction n as [|n IH]; intros t s H; [reflexivity|]. simpl.
  destruct (observe t) as [r|t'|X e k]; [reflexivity | now apply IH |].
  assert (He : handle_on_loop e s = handle e s).
  { destruct e as [c|m]; [reflexivity|]. unfold handle_on_loop, handle.
    rewrite (notify_silent s H).
    now destruct (on_loop m), (blocking m). }
  rewrite He. destruct (handle e s) as [[x|z] s']; [now apply IH | reflexivity].
Qed.






End Collaborators.

End FollowMe.

(** ** The scenarios, run *)

#[local] Existing Instance CommandResult_enum.

Arguments Exited {R} status.
Arguments Running {R}.

(** The log entries of the scenarios. *)
Local Abbreviation Entry := (@Obs CommandResult CommandResult CommandResult Mode).

(** In the nominal world the run is complete after 40 steps, and its
    transitions are the five commands in order. *)
Lemma complete_run_transitions_nominal :
  outcome (run mode_str nominal 40) = Returned 0%Z /\
  filter is_transition (log (final (run mode_str nominal 40))) =
    [O_arm Success; O_takeoff Success; O_start Success; O_stop Success;
     O_land Success].
Proof.
  assert (H : outcome (run mode_str nominal 40) = Returned 0%Z)
    by (vm_compute; reflexivity).
  split; [exact H|].
  exact (proj2 (complete_run_transitions mode_str nominal 40 H)).
Defined.

(** When [arm] is refused with the reason string "reason", the log ends
    with the refusal and its diagnostic: no takeoff, no FollowMe, and the
    run never completes. *)
Lemma failure_aborts_mission_arm_refused :
  log (final (run mode_str arm_refused 20)) =
    firstn 10 (log (final (run mode_str arm_refused 20))) ++
    O_arm (Failure "reason") ::
    [O_cerr [Str ERROR_CONSOLE_TEXT; Str "Arming failed"; Str "reason";
             Str NORMAL_CONSOLE_TEXT]] /\
  checked (O_arm (Failure "reason") : Entry) = true /\
  failed (O_arm (Failure "reason") : Entry) /\
  outcome (run mode_str arm_refused 20) = Exited EXIT_FAILURE /\
  (forall z, outcome (run mode_str arm_refused 20) <> Returned z) /\
  Forall (fun o => is_command o = false)
    [O_cerr [Str ERROR_CONSOLE_TEXT; Str "Arming failed"; Str "reason";
             Str NORMAL_CONSOLE_TEXT] : Entry].
Proof.
  assert (Hlog : log (final (run mode_str arm_refused 20)) =
                 firstn 10 (log (final (run mode_str arm_refused 20))) ++
                 O_arm (Failure "reason") ::
                 [O_cerr [Str ERROR_CONSOLE_TEXT; Str "Arming failed";
                          Str "reason"; Str NORMAL_CONSOLE_TEXT]])
    by (vm_compute; reflexivity).
  assert (Hchecked : checked (O_arm (Failure "reason") : Entry) = true)
    by reflexivity.
  assert (Hfailed : failed (O_arm (Failure "reason") : Entry))
    by (simpl; discriminate).
  destruct (failure_aborts_mission mode_str arm_refused 20 _ _ _
              Hlog Hchecked Hfailed) as (Hq & _ & Hnot & _).
  assert (Hexit : outcome (run mode_str arm_refused 20) = Exited EXIT_FAILURE)
    by (vm_compute; reflexivity).
  exact (conj Hlog (conj Hchecked (conj Hfailed
           (conj Hexit (conj Hnot Hq))))).
Defined.

(** In the nominal world the first location is pushed after FollowMe has
    started and the callback is registered, before the event loop runs
    out of work and before FollowMe is stopped. *)
Lemma set_target_only_while_following_nominal :
  log (final (run mode_str nominal 40)) =
    firstn 20 (log (final (run mode_str nominal 40))) ++
    O_set_target_location (target_of 47.0 8.5) Success ::
    skipn 21 (log (final (run mode_str nominal 40))) /\
  In (O_start Success) (firstn 20 (log (final (run mode_str nominal 40)))) /\
  ~ In (O_io_run_one false)
      (firstn 20 (log (final (run mode_str nominal 40)))) /\
  (forall r, ~ In (O_stop r)
               (firstn 20 (log (final (run mode_str nominal 40))))).
Proof.
  assert (Hlog : log (final (run mode_str nominal 40)) =
                 firstn 20 (log (final (run mode_str nominal 40))) ++
                 O_set_target_location (target_of 47.0 8.5) Success ::
                 skipn 21 (log (final (run mode_str nominal 40))))
    by (vm_compute; reflexivity).
  destruct (set_target_only_while_following mode_str nominal 40 _ _ _ _ Hlog)
    as (Hstart & _ & Hwork & Hstop).
  exact (conj Hlog (conj Hstart (conj Hwork Hstop))).
Defined.

(** The nominal world is a nominal scenario: two pushes, stop, land, and
    the process returns 0. *)
Lemma nominal_run_two_samples_nominal :
  exists n r1 r2,
    commands (log (final (run mode_str nominal n))) =
      [O_add_udp_connection Success; O_arm Success; O_takeoff Success;
       O_start Success;
       O_set_target_location (target_of 47.0 8.5) r1;
       O_set_target_location (target_of 47.001 8.501) r2;
       O_stop Success; O_land Success] /\
    outcome (run mode_str nominal n) = Returned 0%Z.
Proof.
  destruct (nominal_run_two_samples mode_str nominal 1 1)
    as (n & r1 & r2 & Hc & Ho); try reflexivity.
  exists n, r1, r2. split; [exact Hc | apply Ho; reflexivity].
Defined.

(** When the vehicle link discards the first location, the two locations
    are still pushed in the order of the samples. *)
Lemma targets_in_order_first_discarded :
  filter is_set_target (log (final (run mode_str first_discarded 40))) =
    [O_set_target_location (target_of 47.0 8.5) (Failure "Busy");
     O_set_target_location (target_of 47.001 8.501) Success] /\
  targets (log (final (run mode_str first_discarded 40))) =
    List.map target_of_sample two_samples.
Proof.
  split; [vm_compute; reflexivity|].
  rewrite (proj1 (targets_in_order mode_str first_discarded 40)).
  vm_compute; reflexivity.
Defined.

(** In the nominal world the provider is alive when FollowMe has been
    stopped. *)
Lemma location_provider_never_released_nominal :
  In (O_stop Success) (log (final (run mode_str nominal 40))) /\
  live_providers (final (run mode_str nominal 40)) = 1.
Proof.
  assert (H : In (O_stop Success) (log (final (run mode_str nominal 40))))
    by (vm_compute; repeat (first [left; reflexivity | right])).
  split; [exact H|].
  destruct (location_provider_never_released mode_str nominal 40)
    as (_ & _ & _ & _ & Hstop).
  exact (Hstop _ H).
Defined.

(** C6 does not hold: in the nominal world the run is complete, FollowMe
    has been stopped and the vehicle has landed, and the location provider
    is still alive with its callback registered. *)
Lemma provider_outlives_following :
  outcome (run mode_str nominal 40) = Returned 0%Z /\
  In (O_stop Success) (log (final (run mode_str nominal 40))) /\
  In (O_land Success) (log (final (run mode_str nominal 40))) /\
  live_providers (final (run mode_str nominal 40)) = 1 /\
  location_callback (final (run mode_str nominal 40)) <> None.
Proof.
  split; [vm_compute; reflexivity|].
  split; [vm_compute; repeat (first [left; reflexivity | right])|].
  split; [vm_compute; repeat (first [left; reflexivity | right])|].
  split; [vm_compute; reflexivity | vm_compute; discriminate].
Qed.

(** When no heartbeat is ever seen, the run is running after any number
    of steps, and the first poll gets to its third turn. *)
Lemma readiness_polls_block_no_heartbeat :
  add_udp_connection_result no_heartbeat = Success /\
  (forall j, is_connected_at no_heartbeat j = false) /\
  (forall n, outcome (run mode_str no_heartbeat n) = Running) /\
  exists n, log (final (run mode_str no_heartbeat n)) = awaiting_heartbeat 3.
Proof.
  destruct (readiness_polls_block mode_str no_heartbeat) as [H _];
    [reflexivity|].
  destruct H as [Hrun Hon]; [intros j; reflexivity|].
  split; [reflexivity|]. split; [intros j; reflexivity|].
  split; [intros n; apply Hrun | apply Hon].
Defined.

(** With no sample, no location is pushed, stop and land are issued, and
    the process returns 0. *)
Lemma no_samples_stop_and_land_empty_feed :
  location_updates empty_feed 0 = None /\
  (forall n,
     filter is_set_target (log (final (run mode_str empty_feed n))) = []) /\
  exists n,
    commands (log (final (run mode_str empty_feed n))) =
      [O_add_udp_connection Success; O_arm Success; O_takeoff Success;
       O_start Success; O_stop Success; O_land Success] /\
    outcome (run mode_str empty_feed n) = Returned 0%Z.
Proof.
  destruct (no_samples_stop_and_land mode_str empty_feed)
    as [Hnone Hrun]; [reflexivity|].
  destruct (Hrun 1 1) as (n & Hc & Ho); try reflexivity.
  split; [reflexivity|]. split; [exact Hnone|].
  exists n. split; [exact Hc | apply Ho; reflexivity].
Defined.

(** ** More of the scenarios *)

(** When [arm] is refused the process exits with [EXIT_FAILURE], the log
    ending with the refusal and its diagnostic. *)
Lemma exit_status_is_first_failure_arm_refused :
  exists n, forall m, n <= m ->
    outcome (run mode_str arm_refused m) = Exited EXIT_FAILURE /\
    exists p,
      log (final (run mode_str arm_refused m)) =
      p ++ [O_arm (Failure "reason");
            O_cerr [Str ERROR_CONSOLE_TEXT; Str "Arming failed";
                    Str "reason"; Str NORMAL_CONSOLE_TEXT]].
Proof.
  destruct (exit_status_is_first_failure mode_str arm_refused 1 1 2)
    as (n & H); try reflexivity.
  exists n. intros m Hm. exact (H m Hm).
Defined.

(** The diagnostic of the refused [arm] is the only line on [cerr]. *)
Lemma cerr_is_the_diagnostic_of_a_failure_arm_refused :
  log (final (run mode_str arm_refused 20)) =
    firstn 11 (log (final (run mode_str arm_refused 20))) ++
    [O_cerr [Str ERROR_CONSOLE_TEXT; Str "Arming failed"; Str "reason";
             Str NORMAL_CONSOLE_TEXT]] /\
  Forall (fun o => is_cerr o = false)
    (firstn 11 (log (final (run mode_str arm_refused 20)))) /\
  exists p',
    firstn 11 (log (final (run mode_str arm_refused 20))) =
    p' ++ [O_arm (Failure "reason")].
Proof.
  assert (Hlog : log (final (run mode_str arm_refused 20)) =
                 firstn 11 (log (final (run mode_str arm_refused 20))) ++
                 [O_cerr [Str ERROR_CONSOLE_TEXT; Str "Arming failed";
                          Str "reason"; Str NORMAL_CONSOLE_TEXT]])
    by (vm_compute; reflexivity).
  destruct (cerr_is_the_diagnostic_of_a_failure mode_str arm_refused 20
              _ _ _ Hlog) as (_ & Hp & p' & o & Hp' & _ & _ & Ho).
  split; [exact Hlog|]. split; [exact Hp|].
  exists (firstn 10 (log (final (run mode_str arm_refused 20)))).
  vm_compute; reflexivity.
Defined.

(** In the nominal world "Armed" is printed after [arm] has succeeded. *)
Lemma progress_messages_follow_success_nominal :
  log (final (run mode_str nominal 40)) =
    firstn 11 (log (final (run mode_str nominal 40))) ++
    O_cout [Str "Armed"] :: skipn 12 (log (final (run mode_str nominal 40))) /\
  In (O_arm Success) (firstn 11 (log (final (run mode_str nominal 40)))).
Proof.
  assert (Hlog : log (final (run mode_str nominal 40)) =
                 firstn 11 (log (final (run mode_str nominal 40))) ++
                 O_cout [Str "Armed"] ::
                 skipn 12 (log (final (run mode_str nominal 40))))
    by (vm_compute; reflexivity).
  destruct (progress_messages_follow_success mode_str nominal 40 _ _ _ Hlog)
    as (_ & _ & _ & Harmed & _).
  exact (conj Hlog (Harmed eq_refl)).
Defined.

(** In the nominal world each poll fails once before it succeeds. *)
Lemma ready_log_shape_nominal :
  log (final (run mode_str nominal 40)) =
    awaiting_health 1 1 ++
    O_health_all_ok true :: skipn 9 (log (final (run mode_str nominal 40))) /\
  Forall (fun o => is_poll o = false)
    (skipn 9 (log (final (run mode_str nominal 40)))).
Proof.
  assert (Hlog : log (final (run mode_str nominal 40)) =
                 awaiting_health 1 1 ++
                 O_health_all_ok true ::
                 skipn 9 (log (final (run mode_str nominal 40))))
    by (vm_compute; reflexivity).
  exact (conj Hlog (proj2 (ready_log_shape mode_str nominal 40 _ _ Hlog))).
Defined.

(** With an endless stream the run never returns, and FollowMe is not
    stopped in its first 200 steps. *)
Lemma no_stop_while_stream_goes_on_endless :
  (forall k, location_updates endless k <> None) /\
  (forall r, ~ In (O_stop r) (log (final (run mode_str endless 200)))) /\
  (forall z, outcome (run mode_str endless 200) <> Returned z).
Proof.
  assert (Hgo : forall k, location_updates endless k <> None)
    by (intros k; discriminate).
  destruct (no_stop_while_stream_goes_on mode_str endless 200 Hgo)
    as (_ & Hstop & _ & Hret).
  exact (conj Hgo (conj Hstop Hret)).
Defined.

(** In the nominal world each poll fails once: 12 seconds are slept. *)
Lemma sleeps_of_complete_run_nominal :
  outcome (run mode_str nominal 40) = Returned 0%Z /\
  sleeps (log (final (run mode_str nominal 40))) = [1; 1; 5; 5] /\
  list_sum (sleeps (log (final (run mode_str nominal 40)))) = 12.
Proof.
  assert (H : outcome (run mode_str nominal 40) = Returned 0%Z)
    by (vm_compute; reflexivity).
  destruct (sleeps_of_complete_run mode_str nominal 40 H) as [Hs Hsum].
  split; [exact H|]. split.
  - rewrite Hs. vm_compute; reflexivity.
  - rewrite Hsum. vm_compute; reflexivity.
Defined.

(** When the vehicle link discards every location, both samples are still
    pushed and the run ends. *)
Lemma every_sample_is_pushed_all_discarded :
  set_target_location_result all_discarded 0 = Failure "Busy" /\
  exists n,
    outcome (run mode_str all_discarded n) <> Running /\
    targets (log (final (run mode_str all_discarded n))) =
      [target_of 47.0 8.5; target_of 47.001 8.501] /\
    length (filter is_set_target
              (log (final (run mode_str all_discarded n)))) = 2.
Proof.
  split; [reflexivity|].
  destruct (every_sample_is_pushed mode_str all_discarded 1 1 (k := 2))
    as (n & Ho & Ht & Hl); try reflexivity.
  - intros j Hj. destruct j as [|[|j]]; [discriminate | discriminate | lia].
  - exists n. exact (conj Ho (conj Ht Hl)).
Defined.

(** When the vehicle reports its flight mode on the way, the progress
    messages are the two waiting messages and the four announcements. *)
Lemma progress_of_complete_run_watched :
  outcome (run mode_str watched 40) = Returned 0%Z /\
  progress (log (final (run mode_str watched 40))) =
    ["Wait for device to connect via heartbeat";
     "Waiting for device to be ready";
     "Device is ready"; "Armed"; "In Air..."; "Finished..."].
Proof.
  assert (H : outcome (run mode_str watched 40) = Returned 0%Z)
    by (vm_compute; reflexivity).
  split; [exact H|].
  rewrite (progress_of_complete_run mode_str watched 40 H).
  vm_compute; reflexivity.
Defined.

